(** * make_mp4.py: frame-sequence resolution and encoder invocation

    A shallow embedding of [postProcess/make_mp4.py].  The script collects
    the PNG entries of a directory, infers or accepts a naming scheme
    (prefix and zero-padding width), warns about gaps in the numbering,
    runs ffmpeg once and checks the output file.

    Conventions of the model:
    - a Python string is a list of characters ([list ascii]), a character
      standing for a code point below 256; in that range the class [\d]
      of [re] is exactly ['0'..'9'], and lower-casing acts on ['A'..'Z']
      and on the Latin-1 capitals;
    - a Python integer is a [Z];
    - a directory entry is given by its name; paths of one directory
      compare by name, code point by code point, as [PurePosixPath] does;
    - the file system, the search path and the child process are a
      [world]; a run of [main] yields the trace of what it printed, looked
      up and executed, and either a result or the exception that ended
      it. *)

From Stdlib Require Import Ascii String List ZArith NArith Bool Lia.
From Stdlib Require Import DecimalString DecimalZ DecimalPos Sorted Permutation.
Import ListNotations.

Open Scope Z_scope.

(* ================================================================== *)
(** ** Strings *)

Definition str := list ascii.

(** A string literal of the source. *)
Definition lit (s : string) : str := list_ascii_of_string s.

(** [len(l)]. *)
Definition len {A : Type} (l : list A) : Z := Z.of_nat (length l).

(** [str(n)] for a Python integer. *)
Definition str_of_int (n : Z) : str := lit (NilZero.string_of_int (Z.to_int n)).

(** [sep.join(l)]. *)
Fixpoint join (sep : str) (l : list str) : str :=
  match l with
  | [] => []
  | [x] => x
  | x :: l' => x ++ sep ++ join sep l'
  end.

Definition code (c : ascii) : N := N_of_ascii c.

Definition is_digit (c : ascii) : bool :=
  ((48 <=? code c) && (code c <=? 57))%N.

Definition is_newline (c : ascii) : bool := (code c =? 10)%N.

(** [str.lower] on one character, which is also the case folding that
    [re.IGNORECASE] uses: ['A'..'Z'] and the Latin-1 capitals
    [U+00C0..U+00DE] (the multiplication sign [U+00D7] apart) move up by 32. *)
Definition lower_char (c : ascii) : ascii :=
  let n := code c in
  if (((65 <=? n) && (n <=? 90))
      || ((192 <=? n) && (n <=? 222) && negb (n =? 215)))%N
  then ascii_of_N (n + 32) else c.

Definition lower (s : str) : str := map lower_char s.

(** Two strings that differ in letter case only. *)
Definition ci_eq (a b : str) : Prop := lower a = lower b.

(** Comparison of Python strings: lexicographic on code points. *)
Fixpoint str_leb (a b : str) : bool :=
  match a, b with
  | [], _ => true
  | _ :: _, [] => false
  | x :: a', y :: b' =>
      match (code x ?= code y)%N with
      | Lt => true
      | Gt => false
      | Eq => str_leb a' b'
      end
  end.

(** [int(d)] for a run of decimal digits. *)
Definition digit_val (c : ascii) : Z := Z.of_N (code c) - 48.

Definition int_of_digits (d : str) : Z :=
  fold_left (fun acc c => 10 * acc + digit_val c) d 0.

(* ================================================================== *)
(** ** [sorted] and [list.sort]

    Python's sort is stable; on a list it returns the stable sorted
    permutation, which insertion from the right computes as well. *)

Section Sorting.
Context {A : Type} (leb : A -> A -> bool).

Fixpoint insert (x : A) (l : list A) : list A :=
  match l with
  | [] => [x]
  | y :: l' => if leb x y then x :: l else y :: insert x l'
  end.

Fixpoint sorted (l : list A) : list A :=
  match l with
  | [] => []
  | x :: l' => insert x (sorted l')
  end.
End Sorting.

(* ================================================================== *)
(** ** The fragment of [re] that the script uses

    Both patterns of the script are a sequence of single-character classes,
    each taken once, one or more times greedily ([+]) or zero or more times
    lazily ([*?]), possibly inside a capturing group; [re.match] anchors the
    sequence at the start of the name and the final [$] at its end.  The
    matcher below backtracks the way [re] does: a greedy repetition tries
    the longest run first, a lazy one the shortest. *)

Inductive cclass : Type :=
| CLit (c : ascii)   (* a literal character, compared under IGNORECASE *)
| CAny               (* [.]: any character but a line feed *)
| CDigit.            (* [\d] *)

Definition accepts (k : cclass) (c : ascii) : bool :=
  match k with
  | CLit a => Ascii.eqb (lower_char a) (lower_char c)
  | CAny => negb (is_newline c)
  | CDigit => is_digit c
  end.

Inductive quant : Type := Once | PlusGreedy | StarLazy.

Record item : Type := Item { cls : cclass; rep : quant; grp : bool }.

Definition regex := list item.

(** [$] without MULTILINE: the end of the string, or just before a line
    feed that ends the string. *)
Definition at_end (s : str) : bool :=
  match s with
  | [] => true
  | [c] => is_newline c
  | _ => false
  end.

Section Repetition.
Context {R : Type}.
(** The continuation gets the text the repetition consumed and the rest
    of the input. *)
Variable k : str -> str -> option R.
Variable c : cclass.

Fixpoint star_lazy (acc s : str) : option R :=
  match k (rev acc) s with
  | Some r => Some r
  | None =>
      match s with
      | [] => None
      | a :: s' => if accepts c a then star_lazy (a :: acc) s' else None
      end
  end.

Fixpoint star_greedy (acc s : str) : option R :=
  match s with
  | a :: s' =>
      if accepts c a then
        match star_greedy (a :: acc) s' with
        | Some r => Some r
        | None => k (rev acc) s
        end
      else k (rev acc) s
  | [] => k (rev acc) s
  end.

Definition plus_greedy (s : str) : option R :=
  match s with
  | a :: s' => if accepts c a then star_greedy [a] s' else None
  | [] => None
  end.

Definition once (s : str) : option R :=
  match s with
  | a :: s' => if accepts c a then k [a] s' else None
  | [] => None
  end.
End Repetition.

(** [re.match] of an anchored pattern: the captured groups, in order. *)
Fixpoint match_items (p : regex) (s : str) : option (list str) :=
  match p with
  | [] => if at_end s then Some [] else None
  | i :: p' =>
      let k := fun m rest =>
        option_map (fun gs => if grp i then m :: gs else gs)
                   (match_items p' rest) in
      match rep i with
      | Once => once k (cls i) s
      | PlusGreedy => plus_greedy k (cls i) s
      | StarLazy => star_lazy k (cls i) [] s
      end
  end.

Definition literal (s : str) : regex :=
  map (fun c => Item (CLit c) Once false) s.

(** The extension and the end of the name: [\.png$]. *)
Definition ext_items : regex := literal (lit ".png").

(** The tail [(\d+)\.png$] that both patterns share. *)
Definition digits_ext : regex := Item CDigit PlusGreedy true :: ext_items.

(** [r = re.compile(r"^(.*?)(\d+)\.png$", re.IGNORECASE)]. *)
Definition r : regex := Item CAny StarLazy true :: digits_ext.

(** [num_re = re.compile(rf"^{re.escape(prefix)}(\d+)\.png$", re.IGNORECASE)]:
    [re.escape] makes every character of the prefix a literal. *)
Definition num_re (prefix : str) : regex := literal prefix ++ digits_ext.

(** [m.group(i)] for [i >= 1]. *)
Definition group (m : list str) (i : nat) : str := nth (i - 1) m [].

(* ================================================================== *)
(** ** [infer_padding_and_prefix] *)

Inductive exn : Type :=
| SystemExit (msg : str)
| RuntimeError (msg : str).

Definition msg_cannot_infer : str :=
  lit "Cannot infer prefix/padding from filenames. Please specify --prefix/--pad manually.".

(** The [for] loop over the sorted names: the first name that [r] matches
    ends the loop. *)
Fixpoint infer_loop (files : list str) : exn + (str * Z) :=
  match files with
  | [] => inl (RuntimeError msg_cannot_infer)
  | f :: rest =>
      match match_items r f with
      | Some m => inr (group m 1, len (group m 2))
      | None => infer_loop rest
      end
  end.

(** [files] holds the names of paths of one directory, which [sorted]
    orders by name. *)
Definition infer_padding_and_prefix (files : list str) : exn + (str * Z) :=
  infer_loop (sorted str_leb files).

(* ================================================================== *)
(** ** [pathlib] and the environment of a run *)

(** [s.rfind(c)]: the last index of [c], or [-1]. *)
Fixpoint rfind (c : ascii) (s : str) : Z :=
  match s with
  | [] => -1
  | a :: s' =>
      let i := rfind c s' in
      if 0 <=? i then 1 + i else if Ascii.eqb a c then 0 else -1
  end.

(** [PurePath.suffix] of a path whose final component is [name]:
    [name[i:]] for [i = name.rfind('.')] when [0 < i < len(name) - 1],
    and the empty string otherwise. *)
Definition suffix (name : str) : str :=
  let i := rfind "."%char name in
  if (0 <? i) && (i <? len name - 1) then skipn (Z.to_nat i) name else [].

Fixpoint str_eqb (a b : str) : bool :=
  match a, b with
  | [], [] => true
  | x :: a', y :: b' => Ascii.eqb x y && str_eqb a' b'
  | _, _ => false
  end.

(** What the script asks of the operating system and of [pathlib].  The
    entries of a directory are given by their names; [run] is
    [subprocess.run]: the exit code of the child and, for every path,
    its size once the child has ended ([None] when it does not exist). *)
Record world : Type := World {
  is_dir : str -> bool;
  iterdir : str -> list str;
  which : str -> bool;
  run : list str -> Z * (str -> option Z);
  path_str : str -> str;            (* str(Path(s)) *)
  joinpath : str -> str -> str;     (* str(Path(d) / name) *)
  resolve : str -> str              (* str(Path(s).resolve()) *)
}.

Inductive preset_t : Type :=
| ultrafast | superfast | veryfast | faster | fast
| medium | slow | slower | veryslow.

Definition preset_name (p : preset_t) : str :=
  match p with
  | ultrafast => lit "ultrafast" | superfast => lit "superfast"
  | veryfast => lit "veryfast" | faster => lit "faster" | fast => lit "fast"
  | medium => lit "medium" | slow => lit "slow" | slower => lit "slower"
  | veryslow => lit "veryslow"
  end.

(** The namespace that [argparse] returns. *)
Record Args : Type := MkArgs {
  indir : str;
  out : str;
  prefix : option str;
  pad : option Z;
  fps : Z;
  crf : Z;
  preset : preset_t
}.

Definition default_args : Args :=
  MkArgs (lit "frames_png") (lit "dropfilm.mp4") None None 30 18 medium.

(* ================================================================== *)
(** ** Effects: what a run prints and calls, and how it ends *)

Inductive event : Type :=
| Stdout (line : str)       (* print(...) *)
| Which (name : str)        (* shutil.which(name) *)
| Run (cmd : list str).     (* subprocess.run(cmd, check=True) *)

Definition M (A : Type) : Type := list event * (exn + A).

Definition ret {A} (x : A) : M A := ([], inr x).

Definition raise {A} (e : exn) : M A := ([], inl e).

Definition emit (e : event) : M unit := ([e], inr tt).

Definition bind {A B} (m : M A) (f : A -> M B) : M B :=
  match m with
  | (t, inl e) => (t, inl e)
  | (t, inr x) => let (t', y) := f x in (t ++ t', y)
  end.

Definition lift {A} (x : exn + A) : M A := ([], x).

Notation "x <- m ;; f" := (bind m (fun x => f))
  (at level 61, m at next level, right associativity).
Notation "m ;;; f" := (bind m (fun _ => f))
  (at level 61, right associativity).

(** The exit status of the process: an uncaught [SystemExit] with a
    message, like any uncaught exception, ends the process with status 1. *)
Definition exit_code {A} (m : M A) : Z :=
  match snd m with
  | inr _ => 0
  | inl _ => 1
  end.

(* ================================================================== *)
(** ** [main] *)

Definition msg_no_indir (w : world) (d : str) : str :=
  lit "[ERROR] Input folder not found: " ++ path_str w d.

Definition msg_no_png (w : world) (d : str) : str :=
  lit "[ERROR] No PNG files found in: " ++ path_str w d.

Definition msg_no_ffmpeg : str :=
  lit "[ERROR] ffmpeg not found. Install it: sudo apt-get update && sudo apt-get install -y ffmpeg".

Definition msg_warn_gaps : str :=
  lit "[WARN] Detected gaps in numbering; ffmpeg will stop at first missing frame.".

Definition msg_running (c : list str) : str :=
  lit "[INFO] Running: " ++ join (lit " ") c.

Definition msg_ffmpeg_failed (rc : Z) : str :=
  lit "[ERROR] ffmpeg failed with code " ++ str_of_int rc.

Definition msg_no_output : str :=
  lit "[ERROR] Output MP4 not created or empty.".

Definition msg_ok (w : world) (o : str) : str :=
  lit "[OK] Video written to " ++ resolve w o.

(** [f.suffix.lower() == ".png"]. *)
Definition is_png (name : str) : bool :=
  str_eqb (lower (suffix name)) (lit ".png").

(** [pngs = sorted([f for f in indir.iterdir() if f.suffix.lower()==".png"])]. *)
Definition pngs_of (w : world) (d : str) : list str :=
  sorted str_leb (filter is_png (iterdir w d)).

(** Lines 76-79: both options must be given for them to be used. *)
Definition resolve_scheme (args : Args) (pngs : list str) : exn + (str * Z) :=
  match prefix args, pad args with
  | Some p, Some n => inr (p, n)
  | _, _ => infer_padding_and_prefix pngs
  end.

(** Lines 83-89: the numbers of the names that [num_re] matches, sorted. *)
Definition nums_of (pre : str) (pngs : list str) : list Z :=
  sorted Z.leb
    (flat_map (fun f =>
                 match match_items (num_re pre) f with
                 | Some m => [int_of_digits (group m 1)]
                 | None => []
                 end) pngs).

(** [zip(nums, nums[1:])]. *)
Definition adjacent (nums : list Z) : list (Z * Z) := combine nums (tl nums).

(** [[b for a,b in zip(nums, nums[1:]) if b != a+1]]. *)
Definition gaps (nums : list Z) : list Z :=
  map snd (filter (fun ab => negb (snd ab =? fst ab + 1)) (adjacent nums)).

(** Lines 90-93: whether the warning is printed. *)
Definition warns (nums : list Z) : bool :=
  (2 <=? len nums) && negb (match gaps nums with [] => true | _ => false end).

Definition gap_check (nums : list Z) : M unit :=
  if warns nums then emit (Stdout msg_warn_gaps) else ret tt.

(** [pattern = f"{prefix}%0{pad}d.png"]. *)
Definition pattern (pre : str) (n : Z) : str :=
  pre ++ lit "%0" ++ str_of_int n ++ lit "d.png".

Definition cmd (args : Args) (w : world) (pre : str) (n : Z) : list str :=
  [ lit "ffmpeg"; lit "-y";
    lit "-framerate"; str_of_int (fps args);
    lit "-i"; joinpath w (indir args) (pattern pre n);
    lit "-c:v"; lit "libx264";
    lit "-preset"; preset_name (preset args);
    lit "-crf"; str_of_int (crf args);
    lit "-pix_fmt"; lit "yuv420p";
    path_str w (out args) ].

(** [out_path.exists() and out_path.stat().st_size > 0]. *)
Definition output_ok (after : str -> option Z) (o : str) : bool :=
  match after o with
  | Some size => 0 <? size
  | None => false
  end.

(** Lines 111-120: one run of the encoder, then the check of the output. *)
Definition encode (args : Args) (w : world) (pre : str) (n : Z) : M unit :=
  let c := cmd args w pre n in
  emit (Stdout (msg_running c)) ;;;
  emit (Run c) ;;;
  let (rc, after) := run w c in
  if negb (rc =? 0) then raise (SystemExit (msg_ffmpeg_failed rc))
  else if output_ok after (out args)
       then emit (Stdout (msg_ok w (out args)))
       else raise (SystemExit msg_no_output).

(** Lines 60-120: the body of [main] once [p.parse_args()] has returned
    the namespace [args]. *)
Definition main (args : Args) (w : world) : M unit :=
  if negb (is_dir w (indir args))
  then raise (SystemExit (msg_no_indir w (indir args)))
  else
    let pngs := pngs_of w (indir args) in
    match pngs with
    | [] => raise (SystemExit (msg_no_png w (indir args)))
    | _ :: _ =>
        emit (Which (lit "ffmpeg")) ;;;
        if negb (which w (lit "ffmpeg")) then raise (SystemExit msg_no_ffmpeg)
        else
          s <- lift (resolve_scheme args pngs) ;;
          gap_check (nums_of (fst s) pngs) ;;;
          encode args w (fst s) (snd s)
    end.

(** What [p.parse_args()] (line 58) makes of the command line: the
    namespace, or the end of the process, which [argparse] brings about in
    two ways: for [-h] it writes the help text to standard output and exits
    with status 0; for a command line it does not accept it writes the
    usage and an error to standard error and exits with status 2. *)
Inductive parsed : Type :=
| Namespace (args : Args)
| HelpExit (text : str)
| UsageExit (text : str).

(** [main()] as a whole (lines 39-120): what the process wrote to standard
    output, looked up and ran, and its exit status. *)
Definition script (p : parsed) (w : world) : list event * Z :=
  match p with
  | Namespace args => (fst (main args w), exit_code (main args w))
  | HelpExit text => ([Stdout text], 0)
  | UsageExit _ => ([], 2)
  end.

(** A world for examples: one directory [frames_png] with the given
    entries, ffmpeg installed, and an encoder that exits with [rc] and
    leaves an output file of the given size (none for [None]). *)
Definition test_world (names : list str) (rc : Z) (size : option Z) : world :=
  World (fun d => str_eqb d (lit "frames_png"))
        (fun d => if str_eqb d (lit "frames_png") then names else [])
        (fun _ => true)
        (fun _ => (rc, fun _ => size))
        (fun s => s)
        (fun d n => d ++ lit "/" ++ n)
        (fun s => lit "/work/" ++ s).

(* ================================================================== *)
(** ** Vocabulary of the statements *)

Definition all_digits (d : str) : Prop := forallb is_digit d = true.

Definition no_newline (p : str) : Prop :=
  forallb (fun c => negb (is_newline c)) p = true.

(** [take_while] and [drop_while] cut a string after its longest run of
    characters of a class. *)
Fixpoint take_while (f : ascii -> bool) (s : str) : str :=
  match s with
  | a :: s' => if f a then a :: take_while f s' else []
  | [] => []
  end.

Fixpoint drop_while (f : ascii -> bool) (s : str) : str :=
  match s with
  | a :: s' => if f a then drop_while f s' else s
  | [] => []
  end.

(** The ways [r] can cut a name [s] into prefix, digits and extension: the
    prefix holds no line feed, and a single line feed may follow the
    extension. *)
Definition r_splits (s p d : str) : Prop :=
  exists e nl,
    s = p ++ d ++ e ++ nl /\ no_newline p /\ d <> [] /\ all_digits d /\
    ci_eq e (lit ".png") /\ at_end nl = true.

(** The same for a name that ends with its extension. *)
Definition cand_splits (s p d : str) : Prop :=
  exists e,
    s = p ++ d ++ e /\ no_newline p /\ d <> [] /\ all_digits d /\
    ci_eq e (lit ".png").

(** The pattern in the words of the specification: a prefix of any
    characters, one or more decimal digits, then the extension. *)
Definition spec_splits (s p d : str) : Prop :=
  exists e, s = p ++ d ++ e /\ d <> [] /\ all_digits d /\ ci_eq e (lit ".png").

(** The ways [num_re pre] can cut a name that ends with its extension. *)
Definition num_splits (pre s d : str) : Prop :=
  exists p' e,
    s = p' ++ d ++ e /\ ci_eq p' pre /\ d <> [] /\ all_digits d /\
    ci_eq e (lit ".png").

Section FirstMatch.
Variable splits : str -> str -> str -> Prop.

(** A non-greedy prefix: the shortest one that leaves a match. *)
Definition lazy_match (s p d : str) : Prop :=
  splits s p d /\
  forall p' d', splits s p' d' -> (length p <= length p')%nat.

(** [(pre, n)] is the prefix and the digit count of the first name, in
    sorted order, that the pattern matches. *)
Definition first_match (files : list str) (pre : str) (n : Z) : Prop :=
  exists before f after d,
    sorted str_leb files = before ++ f :: after /\
    (forall g, In g before -> forall p' d', ~ splits g p' d') /\
    lazy_match f pre d /\ n = len d.
End FirstMatch.

(** The specification of [infer_scheme], as it is worded, on a list of
    candidates. *)
Definition infer_scheme_as_specified (files : list str) : Prop :=
  forall pre n,
    infer_padding_and_prefix files = inr (pre, n) <->
    first_match spec_splits files pre n.

(** [len(str(k))]: the number of digits of a frame number. *)
Definition num_digits (k : Z) : Z := len (str_of_int k).

(** [max(nums)]. *)
Definition largest (nums : list Z) : Z := fold_right Z.max 0 nums.

(** The invariant of a naming scheme, as the specification words it, on
    the candidates of a directory. *)
Definition pad_covers_largest (pre : str) (n : Z) (pngs : list str) : Prop :=
  num_digits (largest (nums_of pre pngs)) <= n.

Definition prefix_precedes_number (pre : str) (pngs : list str) : Prop :=
  forall f m, In f pngs -> match_items (num_re pre) f = Some m ->
    exists rest, f = pre ++ group m 1 ++ rest.

Definition scheme_invariant_as_specified (files : list str) : Prop :=
  forall pre n, infer_padding_and_prefix files = inr (pre, n) ->
    pad_covers_largest pre n files /\ prefix_precedes_number pre files.

(** What gap detection prints. *)
Definition warn_events (nums : list Z) : list event :=
  if warns nums then [Stdout msg_warn_gaps] else [].

(** The commands of the encoder runs of a trace. *)
Definition runs (t : list event) : list (list str) :=
  flat_map (fun e => match e with Run c => [c] | _ => [] end) t.

(** The run gets as far as the encoder with the scheme [(pre, n)]. *)
Definition reaches_encoder (args : Args) (w : world) (pre : str) (n : Z) : Prop :=
  is_dir w (indir args) = true /\
  pngs_of w (indir args) <> [] /\
  which w (lit "ffmpeg") = true /\
  resolve_scheme args (pngs_of w (indir args)) = inr (pre, n).

Definition newline : ascii := "010"%char.

(** [num_re pre] matches the name. *)
Definition matches_num_re (pre f : str) : bool :=
  match match_items (num_re pre) f with
  | Some _ => true
  | None => false
  end.

(** The namespace with both scheme options left out. *)
Definition without_scheme (args : Args) : Args :=
  MkArgs (indir args) (out args) None None (fps args) (crf args) (preset args).

(** Five frames with one missing between 5 and 7; the encoder succeeds. *)
Definition gap_world : world :=
  test_world [lit "f3.png"; lit "f4.png"; lit "f5.png"; lit "f7.png";
              lit "f8.png"] 0 (Some 1024).

(** The encoder exits with status 0 and leaves an empty output file. *)
Definition empty_output_world : world :=
  test_world [lit "f1.png"; lit "f2.png"] 0 (Some 0).

(** The encoder exits with status 1 and leaves a partial output file. *)
Definition failing_world : world :=
  test_world [lit "f1.png"; lit "f2.png"] 1 (Some 512).


(** A candidate whose stem holds a line feed. *)
Definition name_with_line_feed : str := lit "a" ++ newline :: lit "b1.png".

(** Two frames whose names differ in the case of the prefix and in the
    number of digits. *)
Definition mixed_files : list str := [lit "F1.png"; lit "f10.png"].

Definition clip_files : list str :=
  [ lit "clip_001.png"; lit "clip_002.png"; lit "clip_003.png";
    lit "clip_004.png"; lit "clip_005.png"; lit "clip_006.png";
    lit "clip_007.png"; lit "clip_008.png"; lit "clip_009.png";
    lit "clip_010.png" ].

(** The characters of a message that tell the error messages of the
    script apart ([m[8]] and [m[15]]). *)
Definition msg_tag (m : str) : ascii * ascii :=
  (nth 8 m " "%char, nth 15 m " "%char).

(** The code points of the capital letters that [str.lower] and
    [re.IGNORECASE] fold: A to Z, and the Latin-1 capitals. *)
Definition upper_code (n : N) : Prop :=
  (65 <= n <= 90 \/ (192 <= n <= 222 /\ n <> 215))%N.

(** Two characters that are equal, or a capital letter and its small
    letter, 32 code points above. *)
Definition same_letter (a b : ascii) : Prop :=
  a = b \/
  (upper_code (code a) /\ code b = code a + 32)%N \/
  (upper_code (code b) /\ code a = code b + 32)%N.

(** The specification of the failure of [infer_scheme], as it is worded,
    with the pattern as the specification words it. *)
Definition infer_fails_as_specified (files : list str) : Prop :=
  forall e,
    infer_padding_and_prefix files = inl e <->
    e = RuntimeError msg_cannot_infer /\
    forall f, In f files -> forall p d, ~ spec_splits f p d.

(** Another candidate whose stem holds a line feed. *)
Definition second_name_with_line_feed : str :=
  lit "x" ++ newline :: lit "y2.png".

(** [r] matches the name. *)
Definition matches_r (f : str) : bool :=
  match match_items r f with
  | Some _ => true
  | None => false
  end.

(** A scheme given on the command line that no frame carries. *)
Definition odd_scheme_args : Args :=
  MkArgs (lit "frames_png") (lit "dropfilm.mp4") (Some (lit "zzz")) (Some (-3))
         30 18 medium.

(** The world with another listing of its directories. *)
Definition with_entries (w : world) (entries : str -> list str) : world :=
  World (is_dir w) entries (which w) (run w)
        (path_str w) (joinpath w) (resolve w).

(** The last character of the string is a decimal digit. *)
Definition ends_with_digit (p : str) : bool :=
  match rev p with
  | c :: _ => is_digit c
  | [] => false
  end.

(** [list(range(a, a + n))]. *)
Fixpoint consecutive (a : Z) (n : nat) : list Z :=
  match n with
  | O => []
  | S n' => a :: consecutive (a + 1) n'
  end.

(** A name made of the prefix, a run of [w] digits and the extension. *)
Definition consistent_name (pre : str) (w : Z) (f : str) : Prop :=
  exists d e,
    f = pre ++ d ++ e /\ all_digits d /\ len d = w /\ ci_eq e (lit ".png").

(** No directory [frames_png]. *)
Definition no_dir_world : world :=
  World (fun _ => false) (fun _ => []) (fun _ => true)
        (fun _ => (0, fun _ => Some 1024))
        (fun s => s) (fun d n => d ++ lit "/" ++ n) (fun s => lit "/work/" ++ s).

(** Frames without numbers in their names, and no ffmpeg on the search
    path. *)
Definition no_ffmpeg_world : world :=
  World (fun d => str_eqb d (lit "frames_png"))
        (fun _ => [lit "cover.png"; lit "title.png"])
        (fun _ => false)
        (fun _ => (0, fun _ => Some 1024))
        (fun s => s) (fun d n => d ++ lit "/" ++ n) (fun s => lit "/work/" ++ s).

(** Frames without numbers in their names, ffmpeg installed. *)
Definition unnumbered_world : world :=
  test_world [lit "cover.png"; lit "title.png"] 0 (Some 1024).

(** Three consecutive frames; the encoder succeeds. *)
Definition good_world : world :=
  test_world [lit "frame-00002.png"; lit "notes.txt"; lit "frame-00000.png";
              lit "frame-00001.png"] 0 (Some 1024).

(* ================================================================== *)
(** ** Sorting *)

Section SortingFacts.
Context {A : Type} (leb : A -> A -> bool).
Hypothesis leb_total : forall x y, leb x y = true \/ leb y x = true.
Hypothesis leb_trans : forall x y z,
  leb x y = true -> leb y z = true -> leb x z = true.

Let le (x y : A) : Prop := leb x y = true.

Lemma insert_perm (x : A) (l : list A) : Permutation (x :: l) (insert leb x l).
Proof.
  induction l as [|y l IH]; simpl; [reflexivity|].
  destruct (leb x y); [reflexivity|].
  rewrite perm_swap. now constructor.
Qed.

Lemma sorted_perm (l : list A) : Permutation l (sorted leb l).
Proof.
  induction l as [|x l IH]; simpl; [constructor|].
  rewrite <- insert_perm. now constructor.
Qed.

Lemma sorted_In (l : list A) (x : A) : In x (sorted leb l) <-> In x l.
Proof.
  split; apply Permutation_in;
    [symmetry|]; apply sorted_perm.
Qed.

Lemma insert_sorted (x : A) (l : list A) :
  StronglySorted le l -> StronglySorted le (insert leb x l).
Proof.
  induction 1 as [|y l Hl IH Hy]; simpl.
  - repeat constructor.
  - destruct (leb x y) eqn:E.
    + constructor; [now constructor|].
      constructor; [exact E|].
      eapply Forall_impl; [|exact Hy]. intros z Hz. now apply leb_trans with y.
    + constructor; [exact IH|].
      assert (Hyx : le y x) by (destruct (leb_total x y); congruence).
      eapply Permutation_Forall; [apply insert_perm|]. now constructor.
Qed.

Lemma sorted_sorted (l : list A) : StronglySorted le (sorted leb l).
Proof.
  induction l as [|x l IH]; simpl; [constructor|]. now apply insert_sorted.
Qed.

Lemma sorted_id (l : list A) : StronglySorted le l -> sorted leb l = l.
Proof.
  induction 1 as [|x l Hl IH Hx]; simpl; [reflexivity|].
  rewrite IH. destruct l as [|y l]; simpl; [reflexivity|].
  inversion Hx as [|? ? Hxy _]; subst. unfold le in Hxy. now rewrite Hxy.
Qed.

Lemma sorted_idem (l : list A) : sorted leb (sorted leb l) = sorted leb l.
Proof. apply sorted_id, sorted_sorted. Qed.
End SortingFacts.

(** The order of names and the order of integers. *)

Lemma str_leb_total (a b : str) : str_leb a b = true \/ str_leb b a = true.
Proof.
  revert b. induction a as [|x a IH]; intros [|y b]; simpl; auto.
  rewrite (N.compare_antisym (code x) (code y)).
  destruct (code x ?= code y)%N; simpl; auto.
Qed.

Lemma code_inj (x y : ascii) : code x = code y -> x = y.
Proof.
  unfold code. intros H.
  rewrite <- (ascii_N_embedding x), <- (ascii_N_embedding y). now rewrite H.
Qed.

Lemma str_leb_trans (a b c : str) :
  str_leb a b = true -> str_leb b c = true -> str_leb a c = true.
Proof.
  revert b c. induction a as [|x a IH]; intros [|y b] [|z c]; simpl; auto;
    try discriminate.
  destruct (code x ?= code y)%N eqn:Exy; try discriminate;
    destruct (code y ?= code z)%N eqn:Eyz; try discriminate; intros H1 H2.
  - apply N.compare_eq in Exy, Eyz. rewrite Exy, Eyz, N.compare_refl. eauto.
  - apply N.compare_eq in Exy. now rewrite Exy, Eyz.
  - apply N.compare_eq in Eyz. now rewrite <- Eyz, Exy.
  - rewrite N.compare_lt_iff in Exy, Eyz.
    assert (E : (code x ?= code z)%N = Lt) by (rewrite N.compare_lt_iff; lia).
    now rewrite E.
Qed.

Lemma str_leb_antisym (a b : str) :
  str_leb a b = true -> str_leb b a = true -> a = b.
Proof.
  revert b. induction a as [|x a IH]; intros [|y b]; simpl; auto;
    try discriminate.
  rewrite (N.compare_antisym (code x) (code y)).
  destruct (code x ?= code y)%N eqn:E; simpl; try discriminate.
  intros H1 H2. apply N.compare_eq in E. f_equal; [now apply code_inj|auto].
Qed.

Lemma Z_leb_total (x y : Z) : (x <=? y) = true \/ (y <=? x) = true.
Proof. rewrite !Z.leb_le. lia. Qed.

Lemma Z_leb_trans (x y z : Z) :
  (x <=? y) = true -> (y <=? z) = true -> (x <=? z) = true.
Proof. rewrite !Z.leb_le. lia. Qed.

(* ================================================================== *)
(** ** Characters *)

Ltac each_char c :=
  destruct c as [[] [] [] [] [] [] [] []]; vm_compute; try reflexivity;
  try discriminate; try congruence.

Lemma digit_not_dot (c : ascii) :
  is_digit c = true -> accepts (CLit "."%char) c = false.
Proof. each_char c. Qed.

Lemma dot_only_dot (c : ascii) :
  lower_char c = "."%char -> c = "."%char.
Proof. each_char c. Qed.

Lemma ext_char_not_dot (c : ascii) :
  lower_char c = "p"%char \/ lower_char c = "n"%char \/ lower_char c = "g"%char ->
  c <> "."%char.
Proof. intros H E; subst c. vm_compute in H. intuition discriminate. Qed.

Lemma g_not_newline (c : ascii) :
  lower_char c = "g"%char -> is_newline c = false.
Proof. each_char c. Qed.

Lemma is_newline_spec (c : ascii) : is_newline c = true <-> c = newline.
Proof.
  unfold is_newline. rewrite N.eqb_eq. split.
  - intros H. apply code_inj. exact H.
  - now intros ->.
Qed.

Lemma str_eqb_spec (a b : str) : str_eqb a b = true <-> a = b.
Proof.
  revert b. induction a as [|x a IH]; intros [|y b]; simpl;
    try (split; [discriminate|congruence]); try tauto.
  rewrite andb_true_iff, IH. split.
  - intros [H ->]. apply Ascii.eqb_eq in H. now subst.
  - intros H. injection H as -> ->. split; [apply Ascii.eqb_refl|reflexivity].
Qed.

(** A name that differs from [.png] in letter case only. *)
Lemma ci_ext_inv (e : str) :
  ci_eq e (lit ".png") ->
  exists c2 c3 c4, e = ["."%char; c2; c3; c4] /\
    lower_char c2 = "p"%char /\ lower_char c3 = "n"%char /\
    lower_char c4 = "g"%char.
Proof.
  unfold ci_eq. intros H.
  destruct e as [|c1 [|c2 [|c3 [|c4 [|c5 e]]]]]; try discriminate H.
  vm_compute in H. change (lower_char c1 :: lower_char c2 :: lower_char c3 :: lower_char c4 :: nil
                           = "."%char :: "p"%char :: "n"%char :: "g"%char :: nil) in H.
  injection H as H1 H2 H3 H4. apply dot_only_dot in H1. subst c1.
  now exists c2, c3, c4.
Qed.

(* ================================================================== *)
(** ** The matcher *)

Lemma take_drop_while (f : ascii -> bool) (s : str) :
  s = take_while f s ++ drop_while f s.
Proof.
  induction s as [|a s IH]; simpl; [reflexivity|].
  destruct (f a); simpl; congruence.
Qed.

Lemma take_while_all (f : ascii -> bool) (s : str) :
  forallb f (take_while f s) = true.
Proof.
  induction s as [|a s IH]; simpl; [reflexivity|].
  destruct (f a) eqn:E; simpl; [now rewrite E|reflexivity].
Qed.

(** A run of the class followed by a character outside of it is the
    longest run. *)
Lemma take_drop_while_app (f : ascii -> bool) (d : str) (a : ascii) (t : str) :
  forallb f d = true -> f a = false ->
  take_while f (d ++ a :: t) = d /\ drop_while f (d ++ a :: t) = a :: t.
Proof.
  intros Hd Ha. induction d as [|x d IH]; simpl in *.
  - now rewrite Ha.
  - apply andb_true_iff in Hd as [Hx Hd]. rewrite Hx.
    destruct (IH Hd) as [-> ->]. now split.
Qed.

Section RepetitionFacts.
Context {R : Type}.
Variable k : str -> str -> option R.
Variable c : cclass.

Lemma star_lazy_some (acc s : str) (x : R) :
  star_lazy k c acc s = Some x <->
  exists m rest,
    s = m ++ rest /\ forallb (accepts c) m = true /\
    k (rev acc ++ m) rest = Some x /\
    (forall m1 m2, m = m1 ++ m2 -> m2 <> [] ->
       k (rev acc ++ m1) (m2 ++ rest) = None).
Proof.
  split.
  - revert acc. induction s as [|a s IH]; intros acc; simpl.
    + destruct (k (rev acc) []) eqn:E; [|discriminate].
      intros H. injection H as <-. exists [], []. rewrite !app_nil_r.
      split; [reflexivity|]. split; [reflexivity|]. split; [exact E|].
      intros m1 m2 Hm Hm2. symmetry in Hm.
      apply app_eq_nil in Hm as [_ ->]. now elim Hm2.
    + destruct (k (rev acc) (a :: s)) eqn:E.
      * intros H. injection H as <-. exists [], (a :: s). rewrite !app_nil_r.
        split; [reflexivity|]. split; [reflexivity|]. split; [exact E|].
        intros m1 m2 Hm Hm2. symmetry in Hm.
        apply app_eq_nil in Hm as [_ ->]. now elim Hm2.
      * destruct (accepts c a) eqn:Ea; [|discriminate].
        intros H. apply IH in H as (m & rest & -> & Hall & Hk & Hmin).
        exists (a :: m), rest. simpl in Hk, Hmin. rewrite <- app_assoc in Hk.
        split; [reflexivity|]. split; [simpl; now rewrite Ea|].
        split; [exact Hk|].
        intros [|b m1] m2 Hm Hm2; simpl in Hm.
        { subst m2. rewrite app_nil_r. exact E. }
        injection Hm as <- ->.
        specialize (Hmin m1 m2 eq_refl Hm2).
        now rewrite <- app_assoc in Hmin.
  - intros (m & rest & -> & Hall & Hk & Hmin).
    revert acc Hk Hmin. induction m as [|a m IH]; intros acc Hk Hmin.
    + rewrite app_nil_r in Hk. destruct rest; simpl; now rewrite Hk.
    + simpl in Hall. apply andb_true_iff in Hall as [Ha Hall].
      simpl. specialize (Hmin [] (a :: m) eq_refl) as H0.
      rewrite app_nil_r in H0. simpl in H0. rewrite H0 by discriminate.
      rewrite Ha. apply IH; auto.
      * simpl. now rewrite <- app_assoc.
      * intros m1 m2 -> Hm2. simpl. rewrite <- app_assoc. simpl.
        now apply (Hmin (a :: m1) m2).
Qed.

Lemma star_lazy_none (acc s : str) :
  star_lazy k c acc s = None <->
  forall m rest, s = m ++ rest -> forallb (accepts c) m = true ->
    k (rev acc ++ m) rest = None.
Proof.
  split.
  - revert acc. induction s as [|a s IH]; intros acc; simpl.
    + destruct (k (rev acc) []) eqn:E; [discriminate|].
      intros _ m rest Hs _. symmetry in Hs.
      apply app_eq_nil in Hs as [-> ->]. now rewrite app_nil_r.
    + destruct (k (rev acc) (a :: s)) eqn:E; [discriminate|].
      intros H [|b m] rest Hs Hall.
      * simpl in Hs. subst rest. now rewrite app_nil_r.
      * simpl in Hs. injection Hs as <- ->. simpl in Hall.
        apply andb_true_iff in Hall as [Ha Hall]. rewrite Ha in H.
        specialize (IH _ H m rest eq_refl Hall). simpl in IH.
        now rewrite <- app_assoc in IH.
  - intros H. destruct (star_lazy k c acc s) eqn:E; [|reflexivity].
    apply star_lazy_some in E as (m & rest & Hs & Hall & Hk & _).
    rewrite (H m rest Hs Hall) in Hk. discriminate.
Qed.

(** When the continuation cannot start at a character of the class, a
    greedy repetition never backtracks. *)
Hypothesis k_stops : forall m a rest,
  accepts c a = true -> k m (a :: rest) = None.

Lemma star_greedy_run (acc s : str) :
  star_greedy k c acc s =
  k (rev acc ++ take_while (accepts c) s) (drop_while (accepts c) s).
Proof.
  revert acc. induction s as [|a s IH]; intros acc; simpl.
  - now rewrite app_nil_r.
  - destruct (accepts c a) eqn:Ea.
    + rewrite IH. simpl. rewrite <- app_assoc. simpl.
      destruct (k _ _) eqn:E; [reflexivity|].
      now apply k_stops.
    + now rewrite app_nil_r.
Qed.

Lemma plus_greedy_run (s : str) :
  plus_greedy k c s =
  match take_while (accepts c) s with
  | [] => None
  | d => k d (drop_while (accepts c) s)
  end.
Proof.
  destruct s as [|a s]; simpl; [reflexivity|].
  destruct (accepts c a); [|reflexivity].
  now rewrite star_greedy_run.
Qed.
End RepetitionFacts.

Lemma ci_eq_cons (a b : ascii) (s t : str) :
  ci_eq (a :: s) (b :: t) <-> lower_char a = lower_char b /\ ci_eq s t.
Proof.
  unfold ci_eq. simpl. split.
  - intros H. now injection H.
  - now intros [-> ->].
Qed.

Lemma ci_eq_nil_r (s : str) : ci_eq s [] <-> s = [].
Proof.
  unfold ci_eq. destruct s; simpl; split; congruence.
Qed.

(** A run of literals takes a piece of the same length that differs from
    it in letter case only. *)
Lemma match_literal (l : str) (q : regex) (s : str) (gs : list str) :
  match_items (literal l ++ q) s = Some gs <->
  exists s1 s2, s = s1 ++ s2 /\ ci_eq s1 l /\ match_items q s2 = Some gs.
Proof.
  revert s. induction l as [|a l IH]; intros s.
  - simpl. split.
    + intros H. exists [], s. repeat split; auto.
    + intros (s1 & s2 & -> & H1 & H2). apply (proj1 (ci_eq_nil_r s1)) in H1. subst s1. exact H2.
  - change (match_items (literal (a :: l) ++ q) s)
      with (once (fun m rest => option_map (fun gs => gs)
                                   (match_items (literal l ++ q) rest))
                 (CLit a) s).
    destruct s as [|b s]; simpl.
    + split; [discriminate|].
      intros (s1 & s2 & Hs & H1 & _). symmetry in Hs.
      apply app_eq_nil in Hs as [-> _]. discriminate H1.
    + destruct (Ascii.eqb_spec (lower_char a) (lower_char b)) as [E|E].
      * assert (Hid : forall o : option (list str), option_map (fun gs => gs) o = o)
          by now intros [|].
        rewrite Hid, IH. split.
        -- intros (s1 & s2 & -> & H1 & H2). exists (b :: s1), s2.
           repeat split; auto. apply ci_eq_cons. auto.
        -- intros ([|b' s1] & s2 & Hs & H1 & H2); [discriminate H1|].
           injection Hs as <- ->. apply ci_eq_cons in H1 as [_ H1]. eauto.
      * split; [discriminate|].
        intros ([|b' s1] & s2 & Hs & H1 & H2); [discriminate H1|].
        injection Hs as <- ->. apply ci_eq_cons in H1 as [H1 _]. congruence.
Qed.

Lemma match_ext (s : str) (gs : list str) :
  match_items ext_items s = Some gs <->
  gs = [] /\ exists e nl, s = e ++ nl /\ ci_eq e (lit ".png") /\ at_end nl = true.
Proof.
  unfold ext_items. rewrite <- (app_nil_r (literal _)), match_literal. simpl.
  split.
  - intros (e & nl & -> & He & H). destruct (at_end nl) eqn:E; [|discriminate].
    injection H as <-. eauto 6.
  - intros (-> & e & nl & -> & He & Hnl). exists e, nl. now rewrite Hnl.
Qed.

Lemma match_ext_stops (a : ascii) (rest : str) :
  is_digit a = true -> match_items ext_items (a :: rest) = None.
Proof.
  intros Ha. apply digit_not_dot in Ha.
  change (match_items ext_items (a :: rest))
    with (if accepts (CLit "."%char) a
          then option_map (fun gs : list str => gs)
                 (match_items (literal (lit "png")) rest)
          else None).
  now rewrite Ha.
Qed.

Lemma match_digits_ext (s : str) (m : list str) :
  match_items digits_ext s = Some m <->
  exists d e nl,
    m = [d] /\ s = d ++ e ++ nl /\ d <> [] /\ all_digits d /\
    ci_eq e (lit ".png") /\ at_end nl = true.
Proof.
  change (match_items digits_ext s)
    with (plus_greedy (fun m rest => option_map (fun gs => m :: gs)
                                       (match_items ext_items rest))
                      CDigit s).
  rewrite plus_greedy_run.
  2:{ intros m0 a rest Ha. simpl in Ha. now rewrite match_ext_stops. }
  change (accepts CDigit) with is_digit. split.
  - destruct (take_while is_digit s) as [|x d] eqn:Ed; [discriminate|].
    destruct (match_items ext_items (drop_while is_digit s)) as [gs|] eqn:Ee;
      [|discriminate].
    simpl. intros H. injection H as <-.
    apply match_ext in Ee as (-> & e & nl & Hs & He & Hnl).
    exists (x :: d), e, nl. repeat split; auto; try discriminate.
    + rewrite (take_drop_while is_digit s) at 1. now rewrite Ed, Hs.
    + unfold all_digits. rewrite <- Ed. apply take_while_all.
  - intros (d & e & nl & -> & -> & Hd & Hall & He & Hnl).
    destruct (ci_ext_inv e He) as (c2 & c3 & c4 & -> & _).
    destruct (take_drop_while_app is_digit d "."%char ([c2; c3; c4] ++ nl) Hall eq_refl)
      as [Ht Hdr].
    simpl app in *. rewrite Ht, Hdr.
    destruct d as [|x d]; [now elim Hd|].
    assert (Hm : match_items ext_items ("."%char :: c2 :: c3 :: c4 :: nl) = Some []).
    { apply match_ext. split; [reflexivity|]. now exists ["."%char; c2; c3; c4], nl. }
    now rewrite Hm.
Qed.

Lemma app_prefix_shorter {A : Type} (p p' a b : list A) :
  p ++ a = p' ++ b -> (length p' < length p)%nat ->
  exists x t, p = p' ++ x :: t.
Proof.
  revert p. induction p' as [|y p' IH]; intros [|x p] H Hlen; simpl in *;
    try lia.
  - now exists x, p.
  - injection H as -> H. destruct (IH p H) as (x' & t & ->); [lia|].
    now exists x', t.
Qed.

Lemma no_newline_app (a b : str) :
  no_newline (a ++ b) <-> no_newline a /\ no_newline b.
Proof. unfold no_newline. now rewrite forallb_app, andb_true_iff. Qed.

(** What [r] matches, and with which groups. *)
Lemma match_r_some (s : str) (m : list str) :
  match_items r s = Some m <->
  exists p d, m = [p; d] /\ lazy_match r_splits s p d.
Proof.
  change (match_items r s)
    with (star_lazy (fun m rest => option_map (fun gs => m :: gs)
                                     (match_items digits_ext rest))
                    CAny [] s).
  rewrite star_lazy_some. simpl rev. simpl app. split.
  - intros (p & rest & -> & Hp & Hk & Hmin).
    destruct (match_items digits_ext rest) as [gs|] eqn:E; [|discriminate].
    simpl in Hk. injection Hk as <-.
    apply match_digits_ext in E as (d & e & nl & -> & -> & Hd & Hall & He & Hnl).
    exists p, d. split; [reflexivity|]. split.
    + exists e, nl. repeat split; auto.
    + intros p' d' (e' & nl' & Hs & Hp' & Hd' & Hall' & He' & Hnl').
      destruct (Nat.le_gt_cases (length p) (length p')) as [|Hlt]; [assumption|].
      destruct (app_prefix_shorter _ _ _ _ Hs Hlt) as (x & t & ->).
      rewrite <- app_assoc in Hs. apply app_inv_head in Hs.
      specialize (Hmin p' (x :: t) eq_refl). rewrite Hs in Hmin.
      assert (E : match_items digits_ext (d' ++ e' ++ nl') = Some [d']).
      { apply match_digits_ext. exists d', e', nl'. repeat split; auto. }
      rewrite E in Hmin. discriminate Hmin. discriminate.
  - intros (p & d & -> & (e & nl & -> & Hp & Hd & Hall & He & Hnl) & Hmin).
    exists p, (d ++ e ++ nl). split; [reflexivity|]. split; [exact Hp|].
    split.
    + assert (E : match_items digits_ext (d ++ e ++ nl) = Some [d]).
      { apply match_digits_ext. exists d, e, nl. repeat split; auto. }
      now rewrite E.
    + intros m1 m2 -> Hm2.
      destruct (match_items digits_ext (m2 ++ d ++ e ++ nl)) as [gs|] eqn:E;
        [|reflexivity].
      apply match_digits_ext in E as (d' & e' & nl' & _ & Hs & Hd' & Hall' & He' & Hnl').
      apply no_newline_app in Hp as [Hp1 _].
      assert (Hsplit : r_splits ((m1 ++ m2) ++ d ++ e ++ nl) m1 d').
      { exists e', nl'. rewrite <- app_assoc, Hs. repeat split; auto. }
      apply Hmin in Hsplit. rewrite length_app in Hsplit.
      destruct m2; [now elim Hm2|]. simpl in Hsplit. lia.
Qed.

Lemma match_r_none (s : str) :
  match_items r s = None <-> forall p d, ~ r_splits s p d.
Proof.
  change (match_items r s)
    with (star_lazy (fun m rest => option_map (fun gs => m :: gs)
                                     (match_items digits_ext rest))
                    CAny [] s).
  rewrite star_lazy_none. simpl rev. simpl app. split.
  - intros H p d (e & nl & Hs & Hp & Hd & Hall & He & Hnl).
    specialize (H p (d ++ e ++ nl) Hs Hp).
    assert (E : match_items digits_ext (d ++ e ++ nl) = Some [d]).
    { apply match_digits_ext. exists d, e, nl. repeat split; auto. }
    rewrite E in H. discriminate H.
  - intros H p rest -> Hp.
    destruct (match_items digits_ext rest) as [gs|] eqn:E; [|reflexivity].
    apply match_digits_ext in E as (d & e & nl & _ & -> & Hd & Hall & He & Hnl).
    elim (H p d). exists e, nl. repeat split; auto.
Qed.

(** What [num_re pre] matches, and with which group. *)
Lemma match_num_re (pre s : str) (m : list str) :
  match_items (num_re pre) s = Some m <->
  exists p' d e nl,
    m = [d] /\ s = p' ++ d ++ e ++ nl /\ ci_eq p' pre /\ d <> [] /\
    all_digits d /\ ci_eq e (lit ".png") /\ at_end nl = true.
Proof.
  unfold num_re. rewrite match_literal. split.
  - intros (p' & rest & -> & Hp & H).
    apply match_digits_ext in H as (d & e & nl & -> & -> & H).
    exists p', d, e, nl. tauto.
  - intros (p' & d & e & nl & -> & -> & Hp & H).
    exists p', (d ++ e ++ nl). repeat split; auto.
    apply match_digits_ext. exists d, e, nl. tauto.
Qed.

(* ================================================================== *)
(** ** Candidates: the names with the suffix [.png] *)

Lemma rfind_absent (c : ascii) (t : str) : ~ In c t -> rfind c t = -1.
Proof.
  induction t as [|a t IH]; simpl; [reflexivity|].
  intros H. rewrite IH by tauto. simpl.
  destruct (Ascii.eqb_spec a c); [|reflexivity]. tauto.
Qed.

Lemma rfind_last (c : ascii) (x t : str) :
  ~ In c t -> rfind c (x ++ c :: t) = len x.
Proof.
  intros H. induction x as [|a x IH]; cbn [rfind app].
  - now rewrite (rfind_absent c t H), Ascii.eqb_refl.
  - rewrite IH. unfold len.
    destruct (0 <=? Z.of_nat (length x)) eqn:E.
    + change (length (a :: x)) with (S (length x)). lia.
    + apply Z.leb_gt in E. lia.
Qed.

Lemma is_png_inv (s : str) :
  is_png s = true ->
  exists x e, s = x ++ e /\ x <> [] /\ ci_eq e (lit ".png").
Proof.
  unfold is_png, suffix. rewrite str_eqb_spec.
  destruct ((0 <? rfind "."%char s) && (rfind "."%char s <? len s - 1)) eqn:E;
    [|discriminate].
  apply andb_true_iff in E as [E _]. apply Z.ltb_lt in E.
  intros H. exists (firstn (Z.to_nat (rfind "."%char s)) s),
                   (skipn (Z.to_nat (rfind "."%char s)) s).
  split; [now rewrite firstn_skipn|]. split; [|exact H].
  intros Hx. destruct s as [|a s]; [discriminate H|].
  destruct (Z.to_nat (rfind "."%char (a :: s))) eqn:En; [lia|discriminate Hx].
Qed.

Lemma is_png_intro (x e : str) :
  x <> [] -> ci_eq e (lit ".png") -> is_png (x ++ e) = true.
Proof.
  intros Hx He. destruct (ci_ext_inv e He) as (c2 & c3 & c4 & -> & H2 & H3 & H4).
  unfold is_png, suffix. rewrite rfind_last.
  - assert (E : (0 <? len x) && (len x <? len (x ++ ["."%char; c2; c3; c4]) - 1) = true).
    { unfold len. rewrite length_app. simpl length.
      destruct x; [now elim Hx|]. simpl length.
      apply andb_true_iff. rewrite !Z.ltb_lt. lia. }
    rewrite E. unfold len. rewrite Nat2Z.id, skipn_app, skipn_all, Nat.sub_diag.
    apply str_eqb_spec. exact He.
  - simpl. intros [H|[H|[H|[]]]]; revert H; apply ext_char_not_dot; auto.
Qed.

(** A candidate is a name with a non-empty stem that ends with [.png],
    in any letter case. *)
Lemma is_png_spec (s : str) :
  is_png s = true <->
  exists x e, s = x ++ e /\ x <> [] /\ ci_eq e (lit ".png").
Proof.
  split; [apply is_png_inv|].
  intros (x & e & -> & Hx & He). now apply is_png_intro.
Qed.

(** No line feed follows the extension of a candidate. *)
Lemma is_png_end (s a e nl : str) :
  is_png s = true -> s = a ++ e ++ nl -> ci_eq e (lit ".png") ->
  at_end nl = true -> nl = [].
Proof.
  intros Hs E He Hnl. destruct nl as [|c [|c' nl]]; [reflexivity| |discriminate].
  simpl in Hnl. exfalso.
  apply is_png_inv in Hs as (x & e' & -> & _ & He').
  destruct (ci_ext_inv e' He') as (c2 & c3 & c4 & -> & _ & _ & H4).
  change (x ++ ["."%char; c2; c3; c4]) with (x ++ ["."%char; c2; c3] ++ [c4]) in E.
  rewrite !app_assoc in E. apply app_inj_tail in E as [_ <-].
  apply g_not_newline in H4. congruence.
Qed.

Lemma r_splits_cand (s p d : str) :
  is_png s = true -> (r_splits s p d <-> cand_splits s p d).
Proof.
  intros Hs. split.
  - intros (e & nl & E & Hp & Hd & Hall & He & Hnl).
    assert (nl = []) as ->.
    { apply (is_png_end s (p ++ d) e nl); auto. now rewrite <- app_assoc. }
    rewrite app_nil_r in E. exists e. tauto.
  - intros (e & E & H). exists e, []. rewrite app_nil_r. tauto.
Qed.

(* ================================================================== *)
(** ** [infer_padding_and_prefix] *)

Lemma infer_loop_some (l : list str) (pre : str) (n : Z) :
  infer_loop l = inr (pre, n) <->
  exists before f after d,
    l = before ++ f :: after /\
    (forall g, In g before -> match_items r g = None) /\
    match_items r f = Some [pre; d] /\ n = len d.
Proof.
  induction l as [|f l IH]; cbn [infer_loop].
  - split; [discriminate|].
    intros (before & f & after & d & H & _). now destruct before.
  - destruct (match_items r f) as [m|] eqn:E.
    + split.
      * destruct (proj1 (match_r_some f m) E) as (p & d & -> & _).
        intros H. injection H as <- <-.
        exists [], f, l, d. split; [reflexivity|].
        split; [intros g []|]. split; [exact E|reflexivity].
      * intros ([|g before] & f' & after & d & H & Hb & Hf & ->).
        -- injection H as <- <-. rewrite Hf in E. now injection E as <-.
        -- injection H as <- _. rewrite (Hb f) in E; [discriminate|now left].
    + rewrite IH. split.
      * intros (before & f' & after & d & -> & Hb & Hf & ->).
        exists (f :: before), f', after, d. repeat split; auto.
        intros g [<-|Hg]; auto.
      * intros ([|g before] & f' & after & d & H & Hb & Hf & ->).
        -- injection H as <- _. rewrite Hf in E. discriminate.
        -- injection H as <- ->. exists before, f', after, d.
           repeat split; auto. intros g' Hg'. apply Hb. now right.
Qed.

Lemma infer_loop_none (l : list str) (e : exn) :
  infer_loop l = inl e <->
  e = RuntimeError msg_cannot_infer /\
  forall f, In f l -> match_items r f = None.
Proof.
  induction l as [|f l IH]; cbn [infer_loop].
  - split.
    + intros H. injection H as <-. split; [reflexivity|]. intros f [].
    + now intros [-> _].
  - destruct (match_items r f) as [m|] eqn:E.
    + split; [discriminate|]. intros [_ H].
      rewrite (H f) in E; [discriminate|now left].
    + rewrite IH. split; intros [-> H]; (split; [reflexivity|]).
      * intros g [<-|Hg]; auto.
      * intros g Hg. apply H. now right.
Qed.

Lemma first_match_ext (A B : str -> str -> str -> Prop) (files : list str) :
  (forall s, In s files -> forall p d, A s p d <-> B s p d) ->
  forall pre n, first_match A files pre n -> first_match B files pre n.
Proof.
  intros HAB pre n (before & f & after & d & Hs & Hb & [Hf Hmin] & ->).
  assert (Hin : forall g, In g (before ++ f :: after) -> In g files).
  { intros g Hg. rewrite <- Hs in Hg.
    exact (proj1 (sorted_In str_leb files g) Hg). }
  exists before, f, after, d. repeat split; auto.
  - intros g Hg p' d' H. apply (Hb g Hg p' d'). apply HAB; auto.
    apply Hin, in_or_app. now left.
  - apply HAB; auto. apply Hin, in_elt.
  - intros p' d' H. apply (Hmin p' d'). apply HAB; auto. apply Hin, in_elt.
Qed.

(** The general form: on any list of names, the result is taken from the
    first name in sorted order that [r] matches. *)
Lemma infer_first_match (files : list str) (pre : str) (n : Z) :
  infer_padding_and_prefix files = inr (pre, n) <->
  first_match r_splits files pre n.
Proof.
  unfold infer_padding_and_prefix. rewrite infer_loop_some. split.
  - intros (before & f & after & d & Hs & Hb & Hf & ->).
    exists before, f, after, d. split; [exact Hs|]. split.
    + intros g Hg. now apply match_r_none, Hb.
    + apply match_r_some in Hf as (p & d' & E & H).
      injection E as <- <-. now split.
  - intros (before & f & after & d & Hs & Hb & Hf & ->).
    exists before, f, after, d. split; [exact Hs|]. split.
    + intros g Hg. apply match_r_none. auto.
    + split; [|reflexivity]. apply match_r_some. now exists pre, d.
Qed.

Lemma StronglySorted_tail {A : Type} (R : A -> A -> Prop) (l1 l2 : list A) :
  StronglySorted R (l1 ++ l2) -> StronglySorted R l2.
Proof.
  induction l1 as [|x l1 IH]; simpl; [auto|].
  intros H. apply StronglySorted_inv in H as [H _]. auto.
Qed.

(** The first match is the least matching name of the list. *)
Lemma first_match_least (files : list str) (pre : str) (n : Z) :
  first_match r_splits files pre n ->
  exists f d, In f files /\ lazy_match r_splits f pre d /\ n = len d /\
    forall g p' d', In g files -> r_splits g p' d' -> str_leb f g = true.
Proof.
  intros (before & f & after & d & Hs & Hb & Hf & ->).
  exists f, d. split.
  { apply (proj1 (sorted_In str_leb files f)). rewrite Hs. apply in_elt. }
  split; [exact Hf|]. split; [reflexivity|].
  intros g p' d' Hg Hg'.
  apply (proj2 (sorted_In str_leb files g)) in Hg. rewrite Hs in Hg.
  apply in_app_or in Hg as [Hg|[<-|Hg]].
  - elim (Hb g Hg p' d' Hg').
  - destruct (str_leb_total f f); assumption.
  - pose proof (sorted_sorted str_leb str_leb_total str_leb_trans files) as S.
    rewrite Hs in S. apply StronglySorted_tail in S.
    apply StronglySorted_inv in S as [_ S].
    rewrite Forall_forall in S. now apply S.
Qed.

(** The general form of the failure: [infer_padding_and_prefix] raises
    exactly when [r] matches no name. *)
Lemma infer_none (files : list str) (e : exn) :
  infer_padding_and_prefix files = inl e <->
  e = RuntimeError msg_cannot_infer /\
  forall f, In f files -> match_items r f = None.
Proof.
  unfold infer_padding_and_prefix. rewrite infer_loop_none.
  split; intros [-> H]; (split; [reflexivity|]); intros f Hf; apply H.
  - exact (proj2 (sorted_In str_leb files f) Hf).
  - exact (proj1 (sorted_In str_leb files f) Hf).
Qed.

(** C1, as the specification words it, fails on a candidate whose stem
    holds a line feed: the words accept the name with the prefix a, line
    feed, b and one digit, while [.] in [r] does not match a line feed and
    the function raises. *)
Lemma infer_scheme_line_feed :
  is_png name_with_line_feed = true /\
  first_match spec_splits [name_with_line_feed]
    (lit "a" ++ newline :: lit "b") 1 /\
  infer_padding_and_prefix [name_with_line_feed]
    = inl (RuntimeError msg_cannot_infer) /\
  ~ infer_scheme_as_specified [name_with_line_feed].
Proof.
  assert (Hspec : first_match spec_splits [name_with_line_feed]
                    (lit "a" ++ newline :: lit "b") 1).
  { exists [], name_with_line_feed, [], (lit "1").
    split; [reflexivity|]. split; [intros g []|]. split; [|reflexivity].
    split.
    - exists (lit ".png"). repeat split; discriminate.
    - intros p' d' (e & E & Hd & Hall & He).
      destruct (ci_ext_inv e He) as (c2 & c3 & c4 & -> & _).
      destruct d' as [|c d']; [now elim Hd|].
      destruct p' as [|x1 [|x2 [|x3 p']]]; simpl; try lia;
        injection E; intros; subst; discriminate Hall. }
  split; [reflexivity|]. split; [exact Hspec|]. split; [reflexivity|].
  intros H. apply H in Hspec. discriminate Hspec.
Qed.

(** C1, amended: on a list of candidates, [infer_padding_and_prefix]
    returns the prefix and the digit count of the first name, in
    lexicographically sorted order, that splits into a shortest prefix
    without line feed, one or more decimal digits and the extension [.png]
    in any letter case; names before it in sorted order do not split that
    way.  The sorted order is a permutation of the candidates that the
    comparison of names orders. *)
Theorem infer_first_candidate_match (files : list str) :
  Forall (fun f => is_png f = true) files ->
  Permutation files (sorted str_leb files) /\
  StronglySorted (fun a b => str_leb a b = true) (sorted str_leb files) /\
  forall pre n,
    infer_padding_and_prefix files = inr (pre, n) <->
    first_match cand_splits files pre n.
Proof.
  intros Hpng. split; [apply sorted_perm|].
  split; [apply sorted_sorted; [apply str_leb_total|apply str_leb_trans]|].
  intros pre n. rewrite infer_first_match.
  rewrite Forall_forall in Hpng.
  split; apply first_match_ext; intros s Hs p d;
    [|symmetry]; apply r_splits_cand; auto.
Qed.

Lemma infer_first_candidate_match_witness :
  Forall (fun f => is_png f = true) [lit "frame-00001.png"; lit "frame-00000.png"] /\
  first_match cand_splits [lit "frame-00001.png"; lit "frame-00000.png"]
    (lit "frame-") 5.
Proof.
  assert (H : Forall (fun f => is_png f = true)
                [lit "frame-00001.png"; lit "frame-00000.png"])
    by (repeat constructor).
  split; [exact H|].
  apply (proj2 (proj2 (infer_first_candidate_match _ H))). reflexivity.
Defined.

Example infer_takes_first_not_widest :
  infer_padding_and_prefix [lit "b001.png"; lit "a1.png"; lit "b002.png"]
  = inr (lit "a", 1).
Proof. reflexivity. Qed.

Example r_frame :
  match_items r (lit "frame-00042.png") = Some [lit "frame-"; lit "00042"].
Proof. reflexivity. Qed.

Example r_shortest_prefix :
  match_items r (lit "a1b22.PNG") = Some [lit "a1b"; lit "22"].
Proof. reflexivity. Qed.

Example r_final_line_feed :
  match_items r (lit "b22.png" ++ [newline]) = Some [lit "b"; lit "22"].
Proof. reflexivity. Qed.

Example num_re_ignores_case :
  match_items (num_re (lit "Fr.")) (lit "fR.0012.pnG") = Some [lit "0012"] /\
  match_items (num_re (lit "Fr.")) (lit "fRx0012.pnG") = None.
Proof. split; reflexivity. Qed.

(** C8, as the specification words it, fails on a candidate whose stem
    holds a line feed: the worded pattern matches the name (prefix x, line
    feed, y and the digit 2), and yet the function raises, which the
    wording allows only when no name matches. *)
Lemma infer_failure_line_feed :
  is_png second_name_with_line_feed = true /\
  spec_splits second_name_with_line_feed (lit "x" ++ newline :: lit "y")
    (lit "2") /\
  infer_padding_and_prefix [second_name_with_line_feed]
    = inl (RuntimeError msg_cannot_infer) /\
  ~ infer_fails_as_specified [second_name_with_line_feed].
Proof.
  assert (Hs : spec_splits second_name_with_line_feed
                 (lit "x" ++ newline :: lit "y") (lit "2")).
  { exists (lit ".png"). repeat split; discriminate. }
  split; [reflexivity|]. split; [exact Hs|]. split; [reflexivity|].
  intros H.
  destruct (proj1 (H (RuntimeError msg_cannot_infer)) eq_refl) as [_ Hnone].
  apply (Hnone second_name_with_line_feed (or_introl eq_refl) _ _ Hs).
Qed.

(** C8, amended: [infer_padding_and_prefix] raises, with the message that
    asks for --prefix and --pad, exactly when no name of the list splits
    the way [r] demands, into a prefix without line feed, one or more
    digits and the extension; whenever some name does, it returns a
    scheme.  On a list of candidates the extension ends the name. *)
Theorem infer_fails_iff_no_match (files : list str) :
  (forall e,
     infer_padding_and_prefix files = inl e <->
     e = RuntimeError msg_cannot_infer /\
     forall f, In f files -> forall p d, ~ r_splits f p d) /\
  ((exists f p d, In f files /\ r_splits f p d) <->
   exists pre n, infer_padding_and_prefix files = inr (pre, n)) /\
  (Forall (fun f => is_png f = true) files ->
   forall e,
     infer_padding_and_prefix files = inl e <->
     e = RuntimeError msg_cannot_infer /\
     forall f, In f files -> forall p d, ~ cand_splits f p d).
Proof.
  assert (Hnone : forall e,
     infer_padding_and_prefix files = inl e <->
     e = RuntimeError msg_cannot_infer /\
     forall f, In f files -> forall p d, ~ r_splits f p d).
  { intros e. rewrite infer_none.
    split; intros [-> H]; (split; [reflexivity|]);
      intros f Hf; apply match_r_none; auto. }
  split; [exact Hnone|]. split; [split|].
  - intros (f & p & d & Hf & Hs).
    destruct (infer_padding_and_prefix files) as [e|[pre n]] eqn:E; [|eauto].
    destruct (proj1 (Hnone e) eq_refl) as [_ H]. elim (H f Hf p d Hs).
  - intros (pre & n & E). apply infer_first_match, first_match_least in E.
    destruct E as (f & d & Hf & [Hs _] & _). eauto.
  - intros Hpng e. rewrite Forall_forall in Hpng. rewrite Hnone.
    split; intros [-> H]; (split; [reflexivity|]); intros f Hf p d Hs;
      apply (H f Hf p d); apply (r_splits_cand f p d (Hpng f Hf)); exact Hs.
Qed.

Lemma infer_fails_iff_no_match_witness :
  Forall (fun f => is_png f = true) [lit "cover.png"] /\
  forall f, In f [lit "cover.png"] -> forall p d, ~ cand_splits f p d.
Proof.
  assert (H : Forall (fun f => is_png f = true) [lit "cover.png"])
    by (repeat constructor).
  split; [exact H|].
  exact (proj2 (proj1 (proj2 (proj2 (infer_fails_iff_no_match [lit "cover.png"]))
                         H (RuntimeError msg_cannot_infer)) eq_refl)).
Defined.

(** C9: for [clip_001.png] to [clip_010.png] the inferred scheme is the
    prefix [clip_] with padding width 3, and the pattern built from it is
    [clip_%03d.png]. *)
Theorem clip_scheme_and_pattern :
  infer_padding_and_prefix clip_files = inr (lit "clip_", 3) /\
  pattern (lit "clip_") 3 = lit "clip_%03d.png".
Proof. split; reflexivity. Qed.

(* ================================================================== *)
(** ** The numeric sequence *)

Lemma digit_val_range (c : ascii) : is_digit c = true -> 0 <= digit_val c <= 9.
Proof.
  unfold is_digit, digit_val. rewrite andb_true_iff, !N.leb_le. lia.
Qed.

Lemma int_of_digits_snoc (d : str) (c : ascii) :
  int_of_digits (d ++ [c]) = 10 * int_of_digits d + digit_val c.
Proof. unfold int_of_digits. now rewrite fold_left_app. Qed.

(** A run of [n] digits denotes a number below [10 ^ n]. *)
Lemma int_of_digits_bound (d : str) :
  all_digits d -> 0 <= int_of_digits d < 10 ^ len d.
Proof.
  unfold all_digits, len. induction d as [|c d IH] using rev_ind.
  - intros _. change (0 <= 0 < 1). lia.
  - rewrite forallb_app, andb_true_iff. simpl. rewrite andb_true_r.
    intros [Hd Hc]. specialize (IH Hd). apply digit_val_range in Hc.
    rewrite int_of_digits_snoc, length_app. simpl length.
    replace (Z.of_nat (length d + 1)) with (Z.succ (Z.of_nat (length d))) by lia.
    rewrite Z.pow_succ_r by lia. lia.
Qed.

Lemma nums_of_In (pre : str) (pngs : list str) (k : Z) :
  In k (nums_of pre pngs) <->
  exists f m, In f pngs /\ match_items (num_re pre) f = Some m /\
              k = int_of_digits (group m 1).
Proof.
  unfold nums_of. rewrite (sorted_In Z.leb), in_flat_map. split.
  - intros (f & Hf & Hk). destruct (match_items (num_re pre) f) as [m|] eqn:E.
    + destruct Hk as [<-|[]]. now exists f, m.
    + destruct Hk.
  - intros (f & m & Hf & E & ->). exists f. split; [exact Hf|].
    rewrite E. now left.
Qed.

Lemma StronglySorted_weaken {A : Type} (R R' : A -> A -> Prop) (l : list A) :
  (forall x y, R x y -> R' x y) -> StronglySorted R l -> StronglySorted R' l.
Proof.
  intros HR. induction 1 as [|x l Hl IH Hx]; constructor; auto.
  eapply Forall_impl; [|exact Hx]. auto.
Qed.

Lemma nums_of_sorted (pre : str) (pngs : list str) :
  StronglySorted Z.le (nums_of pre pngs).
Proof.
  eapply StronglySorted_weaken;
    [|apply (sorted_sorted Z.leb Z_leb_total Z_leb_trans)].
  intros x y. apply Z.leb_le.
Qed.

(** A name that [r] matches with the prefix [pre] is matched by
    [num_re pre], with the same digits. *)
Lemma r_match_num_re (f pre d : str) :
  match_items r f = Some [pre; d] -> match_items (num_re pre) f = Some [d].
Proof.
  intros H. apply match_r_some in H as (p & d' & E & (e & nl & H) & _).
  injection E as <- <-. apply match_num_re.
  exists pre, d, e, nl. split; [reflexivity|].
  destruct H as (H1 & _ & H2). split; [exact H1|].
  split; [reflexivity|exact H2].
Qed.

(** C2, as the specification words it, fails on the frames [F1.png] and
    [f10.png]: the scheme is taken from [F1.png], so the width is 1 while
    the largest frame number, 10, has two digits, and [f10.png] is matched
    (case-insensitively) although [F] does not precede its number. *)
Lemma scheme_invariant_mixed_files :
  infer_padding_and_prefix mixed_files = inr (lit "F", 1) /\
  nums_of (lit "F") mixed_files = [1; 10] /\
  ~ pad_covers_largest (lit "F") 1 mixed_files /\
  ~ prefix_precedes_number (lit "F") mixed_files /\
  ~ scheme_invariant_as_specified mixed_files.
Proof.
  assert (Hpad : ~ pad_covers_largest (lit "F") 1 mixed_files).
  { intros H. vm_compute in H. now apply H. }
  assert (Hpre : ~ prefix_precedes_number (lit "F") mixed_files).
  { intros H. destruct (H (lit "f10.png") [lit "10"]) as (rest & E).
    - right. now left.
    - reflexivity.
    - discriminate E. }
  split; [reflexivity|]. split; [reflexivity|].
  split; [exact Hpad|]. split; [exact Hpre|].
  intros H. destruct (H (lit "F") 1 eq_refl) as [H1 _]. now apply Hpad.
Qed.

(** C2, amended: the scheme that [infer_padding_and_prefix] returns is
    read off the least matching name: the prefix exactly precedes the digit
    run of that name, the width is the length of that digit run, so the
    frame number of that name is below [10 ^ width] (frame numbers of other
    names may be larger), and that name is in the numeric sequence.  In
    every name that [num_re] matches, the digit run is preceded by a string
    that equals the prefix up to letter case. *)
Theorem scheme_of_first_match (files : list str) (pre : str) (n : Z) :
  infer_padding_and_prefix files = inr (pre, n) ->
  (exists f d rest,
     In f files /\ f = pre ++ d ++ rest /\
     match_items r f = Some [pre; d] /\ n = len d /\
     0 <= int_of_digits d < 10 ^ n /\
     In (int_of_digits d) (nums_of pre files) /\
     forall g p' d', In g files -> r_splits g p' d' -> str_leb f g = true) /\
  (forall g m, In g files -> match_items (num_re pre) g = Some m ->
     exists p' rest, g = p' ++ group m 1 ++ rest /\ ci_eq p' pre).
Proof.
  intros H. split.
  - apply infer_first_match, first_match_least in H.
    destruct H as (f & d & Hf & Hm & -> & Hleast).
    assert (E : match_items r f = Some [pre; d])
      by (apply match_r_some; now exists pre, d).
    destruct Hm as [(e & nl & Hs & _ & _ & Hall & _) _].
    exists f, d, (e ++ nl). repeat split; auto.
    + now apply int_of_digits_bound.
    + now apply int_of_digits_bound.
    + apply nums_of_In. exists f, [d]. repeat split; auto.
      now apply r_match_num_re.
  - intros g m _ Hm.
    apply match_num_re in Hm as (p' & d & e & nl & -> & -> & Hp & _).
    now exists p', (e ++ nl).
Qed.

Lemma scheme_of_first_match_witness :
  exists f d rest,
    In f mixed_files /\ f = lit "F" ++ d ++ rest /\
    match_items r f = Some [lit "F"; d] /\ 1 = len d /\
    0 <= int_of_digits d < 10 ^ 1 /\
    In (int_of_digits d) (nums_of (lit "F") mixed_files) /\
    forall g p' d', In g mixed_files -> r_splits g p' d' -> str_leb f g = true.
Proof.
  exact (proj1 (scheme_of_first_match mixed_files (lit "F") 1 eq_refl)).
Defined.

Lemma nums_of_filter (pre : str) (pngs : list str) :
  nums_of pre pngs = nums_of pre (filter (matches_num_re pre) pngs).
Proof.
  unfold nums_of. f_equal.
  induction pngs as [|f l IH]; simpl; [reflexivity|].
  unfold matches_num_re at 1.
  destruct (match_items (num_re pre) f) eqn:E; simpl; [rewrite E|]; now rewrite IH.
Qed.

Lemma nums_of_length (pre : str) (pngs : list str) :
  length (nums_of pre pngs) = length (filter (matches_num_re pre) pngs).
Proof.
  unfold nums_of. rewrite <- (Permutation_length (sorted_perm Z.leb _)).
  induction pngs as [|f l IH]; simpl; [reflexivity|].
  unfold matches_num_re at 1.
  destruct (match_items (num_re pre) f); simpl; now rewrite IH.
Qed.

Lemma int_of_digits_acc (d : str) (acc : Z) :
  fold_left (fun a c => 10 * a + digit_val c) d acc
  = acc * 10 ^ len d + int_of_digits d.
Proof.
  unfold int_of_digits, len. revert acc.
  induction d as [|c d IH]; intros acc.
  - simpl. lia.
  - cbn [fold_left]. rewrite IH, (IH (10 * 0 + digit_val c)).
    change (length (c :: d)) with (S (length d)).
    rewrite Nat2Z.inj_succ, Z.pow_succ_r by lia. ring.
Qed.

Lemma int_of_digits_cons (c : ascii) (d : str) :
  int_of_digits (c :: d) = digit_val c * 10 ^ len d + int_of_digits d.
Proof.
  unfold int_of_digits at 1. cbn [fold_left]. rewrite int_of_digits_acc. lia.
Qed.

(** The decimal digits are the characters that the decimal notation of the
    standard library reads. *)
Lemma is_digit_uint_of_char (c : ascii) (u : Decimal.uint) :
  is_digit c = true <-> exists u', uint_of_char c (Some u) = Some u'.
Proof.
  destruct c as [[] [] [] [] [] [] [] []];
    (split; [intros H; try discriminate H; eexists; reflexivity
            |intros [u' H]; try discriminate H; reflexivity]).
Qed.

Lemma all_digits_uint (d : str) :
  all_digits d <->
  exists u, NilEmpty.uint_of_string (string_of_list_ascii d) = Some u.
Proof.
  unfold all_digits. induction d as [|c d IH]; cbn [forallb string_of_list_ascii NilEmpty.uint_of_string].
  - split; [now exists Decimal.Nil|reflexivity].
  - rewrite andb_true_iff, IH. split.
    + intros [Hc (u & E)]. rewrite E. now apply is_digit_uint_of_char.
    + intros (u & E).
      destruct (NilEmpty.uint_of_string (string_of_list_ascii d)) as [u'|];
        [|discriminate E].
      split; [|now exists u'].
      apply (is_digit_uint_of_char c u'). now exists u.
Qed.

(** [int] of a digit run is the number that the decimal notation of the
    standard library reads from the same digits. *)
Lemma int_of_digits_uint (d : str) (u : Decimal.uint) :
  NilEmpty.uint_of_string (string_of_list_ascii d) = Some u ->
  int_of_digits d = Z.of_uint u /\
  DecimalPos.Unsigned.usize u = N.of_nat (length d).
Proof.
  revert u. induction d as [|c d IH]; intros u H;
    cbn [string_of_list_ascii NilEmpty.uint_of_string] in H.
  - injection H as <-. split; reflexivity.
  - destruct (NilEmpty.uint_of_string (string_of_list_ascii d)) as [u'|];
      [|discriminate H].
    destruct (IH u' eq_refl) as [V S].
    unfold Z.of_uint in V. rewrite DecimalPos.Unsigned.of_uint_alt in V.
    apply uint_of_char_spec in H.
    assert (Hlen : Z.of_N (DecimalPos.Unsigned.usize u') = len d)
      by (rewrite S; unfold len; apply nat_N_Z).
    rewrite int_of_digits_cons.
    repeat destruct H as [H|H]; destruct H as [-> ->];
      (split;
       [ unfold Z.of_uint; rewrite DecimalPos.Unsigned.of_uint_alt;
         unfold Decimal.rev; cbn [Decimal.revapp];
         rewrite DecimalPos.Unsigned.of_lu_revapp;
         cbn [DecimalPos.Unsigned.of_lu];
         rewrite N2Z.inj_add, N2Z.inj_mul, N2Z.inj_pow, Hlen;
         fold (Decimal.rev u'); rewrite <- V;
         vm_compute digit_val; vm_compute (Z.of_N _); lia
       | cbn [DecimalPos.Unsigned.usize length]; rewrite S; lia ]).
Qed.

(** [int(str(n)) = n] for a natural number [n]. *)
Lemma int_of_str_of_int (n : Z) : 0 <= n -> int_of_digits (str_of_int n) = n.
Proof.
  intros Hn. destruct n as [|q|q]; [reflexivity| |lia].
  assert (E : NilEmpty.uint_of_string
                (string_of_list_ascii (str_of_int (Z.pos q)))
              = Some (Pos.to_uint q)).
  { unfold str_of_int, lit. rewrite string_of_list_ascii_of_string.
    cbn [Z.to_int NilZero.string_of_int]. unfold NilZero.string_of_uint.
    pose proof (DecimalPos.Unsigned.to_uint_nonnil q) as Hq.
    destruct (Pos.to_uint q) eqn:Eq; [now elim Hq|..];
      rewrite <- Eq; apply NilEmpty.usu. }
  destruct (int_of_digits_uint _ _ E) as [V _]. rewrite V.
  unfold Z.of_uint. now rewrite DecimalPos.Unsigned.of_to.
Qed.

Lemma upper_code_spec (n : N) :
  (((65 <=? n) && (n <=? 90))
   || ((192 <=? n) && (n <=? 222) && negb (n =? 215)))%N = true <->
  upper_code n.
Proof.
  unfold upper_code.
  rewrite orb_true_iff, !andb_true_iff, negb_true_iff, !N.leb_le, N.eqb_neq.
  tauto.
Qed.

Lemma code_lower_char (c : ascii) :
  (upper_code (code c) /\ code (lower_char c) = code c + 32)%N \/
  (~ upper_code (code c) /\ lower_char c = c).
Proof.
  unfold lower_char.
  destruct (((65 <=? code c) && (code c <=? 90))
            || ((192 <=? code c) && (code c <=? 222)
                && negb (code c =? 215)))%N eqn:E.
  - left. apply upper_code_spec in E. split; [exact E|].
    unfold code at 1. apply N_ascii_embedding. unfold upper_code in E. lia.
  - right. split; [|reflexivity]. intros H. apply upper_code_spec in H.
    congruence.
Qed.

(** Two characters have the same lower case exactly when they are the same
    letter. *)
Lemma lower_char_same_letter (a b : ascii) :
  lower_char a = lower_char b <-> same_letter a b.
Proof.
  unfold same_letter.
  destruct (code_lower_char a) as [[Ua Ea]|[Ua Ea]],
           (code_lower_char b) as [[Ub Eb]|[Ub Eb]].
  - split.
    + intros H. left. apply code_inj. rewrite H in Ea. lia.
    + intros [->|[[_ H]|[_ H]]]; [reflexivity|exfalso|exfalso];
        unfold upper_code in *; lia.
  - rewrite Eb. split.
    + intros H. right. left. split; [exact Ua|]. rewrite <- H. exact Ea.
    + intros [->|[[_ H]|[H _]]]; [contradiction| |contradiction].
      apply code_inj. lia.
  - rewrite Ea. split.
    + intros H. right. right. split; [exact Ub|]. rewrite H. exact Eb.
    + intros [->|[[H _]|[_ H]]]; [contradiction|contradiction|].
      apply code_inj. lia.
  - rewrite Ea, Eb. split.
    + intros ->. now left.
    + intros [->|[[H _]|[H _]]]; [reflexivity|contradiction|contradiction].
Qed.

Lemma ci_eq_same_letter (a b : str) :
  ci_eq a b <-> Forall2 same_letter a b.
Proof.
  revert b. induction a as [|x a IH]; intros [|y b].
  - split; [constructor|reflexivity].
  - split; [discriminate|]. intros H. inversion H.
  - split; [discriminate|]. intros H. inversion H.
  - rewrite ci_eq_cons, IH, lower_char_same_letter. split.
    + intros [H1 H2]. now constructor.
    + intros H. inversion H. now split.
Qed.

(** The group of a match of [num_re pre] is the digit run that follows
    the first [len(pre)] characters of the name. *)
Lemma num_re_digits (pre f : str) (m : list str) :
  match_items (num_re pre) f = Some m ->
  m = [take_while is_digit (skipn (length pre) f)].
Proof.
  intros H.
  apply match_num_re in H as (p' & d & e & nl & -> & -> & Hp & _ & Hd & He & _).
  assert (Hlen : length pre = length p').
  { unfold ci_eq, lower in Hp. apply (f_equal (@length ascii)) in Hp.
    now rewrite !length_map in Hp. }
  rewrite Hlen, skipn_app, skipn_all, Nat.sub_diag. cbn [skipn].
  destruct (ci_ext_inv e He) as (c2 & c3 & c4 & -> & _).
  destruct (take_drop_while_app is_digit d "."%char ([c2; c3; c4] ++ nl)
              Hd eq_refl) as [Ht _].
  simpl app in *. now rewrite Ht.
Qed.

(** The numeric sequence holds one number for each matched candidate. *)
Lemma nums_of_numbers (pre : str) (pngs : list str) :
  Permutation (nums_of pre pngs)
    (map (fun f => int_of_digits (take_while is_digit (skipn (length pre) f)))
         (filter (matches_num_re pre) pngs)).
Proof.
  unfold nums_of. rewrite <- (sorted_perm Z.leb).
  induction pngs as [|f l IH]; cbn [flat_map filter map]; [constructor|].
  unfold matches_num_re at 1.
  destruct (match_items (num_re pre) f) as [m|] eqn:E; [|exact IH].
  rewrite (num_re_digits pre f m E). cbn [app map group Nat.sub nth].
  now constructor.
Qed.

(** C7: on the enumerated candidates, [num_re] matches exactly the names
    made of a string equal to the prefix up to letter case, one or more
    digits and the extension, with nothing before or after; the numeric
    sequence holds the integer value of the digit run of every matched
    name, one entry per matched name, names that do not match add nothing
    to it, and it is sorted ascending.  Equality up to letter case is
    equality letter by letter, a capital and its small letter being the
    same letter; the digit runs are the strings that the decimal notation
    reads, and the integer value is the number it reads; the sequence is a
    permutation of the numbers of the matched names, a number being read
    from the digits that follow the first [len(prefix)] characters. *)
Theorem extract_sequence (pre : str) (pngs : list str) :
  Forall (fun f => is_png f = true) pngs ->
  (forall f m, In f pngs ->
     (match_items (num_re pre) f = Some m <->
      exists d, m = [d] /\ num_splits pre f d)) /\
  (forall k, In k (nums_of pre pngs) <->
     exists f d, In f pngs /\ num_splits pre f d /\ k = int_of_digits d) /\
  (int_of_digits [] = 0 /\
   forall d c, int_of_digits (d ++ [c]) = 10 * int_of_digits d + digit_val c) /\
  length (nums_of pre pngs) = length (filter (matches_num_re pre) pngs) /\
  nums_of pre pngs = nums_of pre (filter (matches_num_re pre) pngs) /\
  StronglySorted Z.le (nums_of pre pngs) /\
  (forall a b, ci_eq a b <-> Forall2 same_letter a b) /\
  (forall d,
     all_digits d <->
     exists u, NilEmpty.uint_of_string (string_of_list_ascii d) = Some u) /\
  (forall d u,
     NilEmpty.uint_of_string (string_of_list_ascii d) = Some u ->
     int_of_digits d = Z.of_uint u) /\
  Permutation (nums_of pre pngs)
    (map (fun f => int_of_digits (take_while is_digit (skipn (length pre) f)))
         (filter (matches_num_re pre) pngs)).
Proof.
  intros Hpng. rewrite Forall_forall in Hpng.
  assert (Hm : forall f m, In f pngs ->
     (match_items (num_re pre) f = Some m <->
      exists d, m = [d] /\ num_splits pre f d)).
  { intros f m Hf. rewrite match_num_re. split.
    - intros (p' & d & e & nl & -> & Hs & Hp & Hd & Hall & He & Hnl).
      assert (nl = []) as ->.
      { apply (is_png_end f (p' ++ d) e nl); auto. now rewrite <- app_assoc. }
      rewrite app_nil_r in Hs. exists d. split; [reflexivity|].
      exists p', e. tauto.
    - intros (d & -> & p' & e & Hs & Hp & Hd & Hall & He).
      exists p', d, e, []. rewrite app_nil_r. tauto. }
  split; [exact Hm|]. split.
  - intros k. rewrite nums_of_In. split.
    + intros (f & m & Hf & E & ->). apply Hm in E as (d & -> & Hs); auto.
      now exists f, d.
    + intros (f & d & Hf & Hs & ->). exists f, [d]. repeat split; auto.
      apply Hm; auto. now exists d.
  - split; [split; [reflexivity|apply int_of_digits_snoc]|].
    split; [apply nums_of_length|].
    split; [apply nums_of_filter|]. split; [apply nums_of_sorted|].
    split; [exact ci_eq_same_letter|]. split; [exact all_digits_uint|].
    split; [|apply nums_of_numbers].
    intros d u E. now apply int_of_digits_uint.
Qed.

Lemma extract_sequence_witness :
  Forall (fun f => is_png f = true) mixed_files /\
  StronglySorted Z.le (nums_of (lit "f") mixed_files).
Proof.
  assert (H : Forall (fun f => is_png f = true) mixed_files)
    by (repeat constructor).
  split; [exact H|].
  exact (proj1 (proj2 (proj2 (proj2 (proj2 (proj2
           (extract_sequence (lit "f") mixed_files H))))))).
Defined.

(* ================================================================== *)
(** ** Gap detection *)

Lemma adjacent_In (nums : list Z) (a b : Z) :
  In (a, b) (adjacent nums) <->
  exists i, nth_error nums i = Some a /\ nth_error nums (S i) = Some b.
Proof.
  unfold adjacent. induction nums as [|x [|y l] IH].
  - simpl. split; [tauto|]. intros (i & H & _). now destruct i.
  - simpl. split; [tauto|]. intros (i & _ & H). now destruct i.
  - change (combine (x :: y :: l) (tl (x :: y :: l)))
      with ((x, y) :: combine (y :: l) (tl (y :: l))).
    simpl In. rewrite IH. split.
    + intros [E|(i & H1 & H2)].
      * injection E as <- <-. now exists 0%nat.
      * now exists (S i).
    + intros ([|i] & H1 & H2).
      * left. simpl in H1, H2. congruence.
      * right. now exists i.
Qed.

Lemma filter_nonempty {A : Type} (f : A -> bool) (l : list A) :
  filter f l <> [] <-> exists x, In x l /\ f x = true.
Proof.
  split.
  - destruct (filter f l) as [|x l'] eqn:E; [congruence|]. intros _.
    exists x. apply filter_In. rewrite E. now left.
  - intros (x & Hx & Hf) E.
    assert (H : In x (filter f l)) by (apply filter_In; auto).
    now rewrite E in H.
Qed.

(** The warning is printed exactly when some adjacent pair of the sequence
    does not differ by one; such a pair needs two integers. *)
Lemma warns_spec (nums : list Z) :
  warns nums = true <->
  2 <= len nums /\
  exists i a b, nth_error nums i = Some a /\ nth_error nums (S i) = Some b /\
                b - a <> 1.
Proof.
  assert (Hgap : gaps nums <> [] <->
            exists i a b, nth_error nums i = Some a /\
                          nth_error nums (S i) = Some b /\ b - a <> 1).
  { unfold gaps. split.
    - intros H.
      assert (H' : filter (fun ab => negb (snd ab =? fst ab + 1)) (adjacent nums) <> [])
        by (intros E; apply H; now rewrite E).
      apply filter_nonempty in H' as ([a b] & Hin & Hf).
      apply adjacent_In in Hin as (i & H1 & H2). simpl in Hf.
      apply negb_true_iff, Z.eqb_neq in Hf. exists i, a, b. repeat split; auto. lia.
    - intros (i & a & b & H1 & H2 & Hne) E. apply map_eq_nil in E.
      revert E. apply filter_nonempty. exists (a, b). split.
      + apply adjacent_In. now exists i.
      + simpl. apply negb_true_iff, Z.eqb_neq. lia. }
  unfold warns. rewrite andb_true_iff, Z.leb_le, negb_true_iff. split.
  - intros [Hlen H]. split; [exact Hlen|]. apply Hgap.
    destruct (gaps nums); [discriminate|discriminate].
  - intros [Hlen H]. split; [exact Hlen|]. apply Hgap in H.
    destruct (gaps nums); [now elim H|reflexivity].
Qed.

(* ================================================================== *)
(** ** The run as a whole *)

Lemma encode_cases (args : Args) (w : world) (pre : str) (n : Z) :
  let c := cmd args w pre n in
  let rc := fst (run w c) in
  let after := snd (run w c) in
  encode args w pre n =
    if negb (rc =? 0)
    then ([Stdout (msg_running c); Run c], inl (SystemExit (msg_ffmpeg_failed rc)))
    else if output_ok after (out args)
         then ([Stdout (msg_running c); Run c; Stdout (msg_ok w (out args))], inr tt)
         else ([Stdout (msg_running c); Run c], inl (SystemExit msg_no_output)).
Proof.
  unfold encode. simpl. destruct (run w (cmd args w pre n)) as [rc after]. simpl.
  destruct (rc =? 0); simpl; [|reflexivity].
  destruct (output_ok after (out args)); reflexivity.
Qed.

(** The five ways a run can go. *)
Lemma main_cases (args : Args) (w : world) :
  let d := indir args in
  (is_dir w d = false /\
   main args w = ([], inl (SystemExit (msg_no_indir w d)))) \/
  (is_dir w d = true /\ pngs_of w d = [] /\
   main args w = ([], inl (SystemExit (msg_no_png w d)))) \/
  (is_dir w d = true /\ pngs_of w d <> [] /\ which w (lit "ffmpeg") = false /\
   main args w = ([Which (lit "ffmpeg")], inl (SystemExit msg_no_ffmpeg))) \/
  (is_dir w d = true /\ pngs_of w d <> [] /\ which w (lit "ffmpeg") = true /\
   exists e, resolve_scheme args (pngs_of w d) = inl e /\
             main args w = ([Which (lit "ffmpeg")], inl e)) \/
  (exists pre n, reaches_encoder args w pre n /\
     main args w =
       (Which (lit "ffmpeg") :: warn_events (nums_of pre (pngs_of w d))
          ++ fst (encode args w pre n),
        snd (encode args w pre n))).
Proof.
  intros d. unfold main, reaches_encoder. fold d.
  remember (lit "ffmpeg") as ff eqn:Eff.
  destruct (is_dir w d); simpl; [|now left].
  right. destruct (pngs_of w d) as [|f l] eqn:Ep; [now left|].
  right. destruct (which w ff) eqn:Ew; simpl.
  2:{ left. split; [reflexivity|]. split; [discriminate|]. now split. }
  right. destruct (resolve_scheme args (f :: l)) as [e|[pre n]] eqn:Er; simpl.
  - left. split; [reflexivity|]. split; [discriminate|]. split; [reflexivity|].
    now exists e.
  - right. exists pre, n. split.
    { split; [reflexivity|]. split; [discriminate|]. now split. }
    unfold gap_check, warn_events.
    destruct (encode args w pre n) as [t res].
    destruct (warns (nums_of pre (f :: l))); reflexivity.
Qed.

Lemma main_reaches (args : Args) (w : world) (pre : str) (n : Z) :
  reaches_encoder args w pre n ->
  main args w =
    (Which (lit "ffmpeg") :: warn_events (nums_of pre (pngs_of w (indir args)))
       ++ fst (encode args w pre n),
     snd (encode args w pre n)).
Proof.
  intros (Hd & Hp & Hw & Hr).
  destruct (main_cases args w) as [[H _]|[(_ & H & _)|[(_ & _ & H & _)|[H|H]]]];
    try congruence.
  - destruct H as (_ & _ & _ & e & H & _). congruence.
  - destruct H as (pre' & n' & (_ & _ & _ & Hr') & H).
    rewrite Hr in Hr'. now injection Hr' as <- <-.
Qed.

Lemma str_of_int_inj (a b : Z) : str_of_int a = str_of_int b -> a = b.
Proof.
  assert (Hnil : forall z, Z.to_int z <> Decimal.Pos Decimal.Nil /\
                           Z.to_int z <> Decimal.Neg Decimal.Nil).
  { intros [|q|q]; simpl; split; try discriminate; intros E; injection E;
      apply Unsigned.to_uint_nonnil. }
  unfold str_of_int, lit. intros H.
  apply (f_equal string_of_list_ascii) in H.
  rewrite !string_of_list_ascii_of_string in H.
  apply (f_equal NilZero.int_of_string) in H.
  rewrite !NilZero.isi in H by apply Hnil.
  injection H. apply to_int_inj.
Qed.

(** The exit code can be read back from the message. *)
Lemma msg_ffmpeg_failed_inj (a b : Z) :
  msg_ffmpeg_failed a = msg_ffmpeg_failed b -> a = b.
Proof.
  unfold msg_ffmpeg_failed. intros H. apply app_inv_head in H.
  now apply str_of_int_inj.
Qed.

Lemma msg_ok_not_running (w : world) (o : str) (c : list str) :
  msg_ok w o <> msg_running c.
Proof. unfold msg_ok, msg_running. simpl. discriminate. Qed.

Lemma msg_ok_not_warn (w : world) (o : str) : msg_ok w o <> msg_warn_gaps.
Proof. unfold msg_ok. simpl. discriminate. Qed.

Lemma msg_warn_not_running (c : list str) : msg_warn_gaps <> msg_running c.
Proof. unfold msg_running. simpl. discriminate. Qed.

Lemma msg_warn_not_ok (w : world) (o : str) : msg_warn_gaps <> msg_ok w o.
Proof. intros H. symmetry in H. revert H. apply msg_ok_not_warn. Qed.

Lemma Stdout_inj (a b : str) : Stdout a = Stdout b -> a = b.
Proof. intros H. now injection H. Qed.

Lemma warn_events_In (nums : list Z) (e : event) :
  In e (warn_events nums) <-> warns nums = true /\ e = Stdout msg_warn_gaps.
Proof.
  unfold warn_events. destruct (warns nums); simpl.
  - split; [intros [<-|[]]; auto|]. intros [_ ->]. now left.
  - split; [tauto|]. intros [H _]. discriminate.
Qed.

Lemma runs_app (t u : list event) : runs (t ++ u) = runs t ++ runs u.
Proof. unfold runs. apply flat_map_app. Qed.

Lemma runs_which (x : str) (t : list event) : runs (Which x :: t) = runs t.
Proof. reflexivity. Qed.

Lemma runs_warn_events (nums : list Z) : runs (warn_events nums) = [].
Proof. unfold warn_events. now destruct (warns nums). Qed.

(** The encoder is run once, whatever it returns. *)
Lemma encode_runs (args : Args) (w : world) (pre : str) (n : Z) :
  runs (fst (encode args w pre n)) = [cmd args w pre n].
Proof.
  rewrite encode_cases.
  destruct (negb _); [reflexivity|]. now destruct (output_ok _ _).
Qed.

(** The success message is in the trace of [encode] exactly when the
    encoder exits with status 0 and the output is there and not empty. *)
Lemma encode_ok (args : Args) (w : world) (pre : str) (n : Z) :
  In (Stdout (msg_ok w (out args))) (fst (encode args w pre n)) <->
  fst (run w (cmd args w pre n)) = 0 /\
  output_ok (snd (run w (cmd args w pre n))) (out args) = true.
Proof.
  rewrite encode_cases.
  assert (Hno : ~ In (Stdout (msg_ok w (out args)))
                   [Stdout (msg_running (cmd args w pre n)); Run (cmd args w pre n)]).
  { intros [H|[H|[]]]; [|discriminate H]. apply Stdout_inj in H.
    symmetry in H. revert H. apply msg_ok_not_running. }
  destruct (fst (run w (cmd args w pre n)) =? 0) eqn:E; simpl negb; cbv iota.
  - apply Z.eqb_eq in E.
    destruct (output_ok _ _) eqn:Eo.
    + split; [auto|]. intros _. simpl. auto.
    + split; [intros H; elim (Hno H)|]. intros [_ H]. discriminate.
  - apply Z.eqb_neq in E. split; [intros H; elim (Hno H)|]. tauto.
Qed.

Lemma encode_warn (args : Args) (w : world) (pre : str) (n : Z) :
  ~ In (Stdout msg_warn_gaps) (fst (encode args w pre n)).
Proof.
  rewrite encode_cases.
  assert (H1 : Stdout msg_warn_gaps <> Stdout (msg_running (cmd args w pre n))).
  { intros H. apply Stdout_inj in H. revert H. apply msg_warn_not_running. }
  assert (H2 : Stdout msg_warn_gaps <> Stdout (msg_ok w (out args))).
  { intros H. apply Stdout_inj in H. revert H. apply msg_warn_not_ok. }
  destruct (negb _); [|destruct (output_ok _ _)]; simpl;
    intuition (try congruence; try discriminate).
Qed.

Lemma output_ok_spec (after : str -> option Z) (o : str) :
  output_ok after o = true <-> exists size, after o = Some size /\ 0 < size.
Proof.
  unfold output_ok. destruct (after o) as [size|].
  - rewrite Z.ltb_lt. split; [eauto|]. intros (s' & E & H). now injection E as ->.
  - split; [discriminate|]. intros (s' & E & _). discriminate.
Qed.

Lemma main_trace_warn (args : Args) (w : world) (pre : str) (n : Z) :
  reaches_encoder args w pre n ->
  (In (Stdout msg_warn_gaps) (fst (main args w)) <->
   warns (nums_of pre (pngs_of w (indir args))) = true).
Proof.
  intros H. rewrite (main_reaches args w pre n H). simpl fst. split.
  - intros [E|E]; [discriminate E|].
    apply in_app_or in E as [E|E]; [now apply warn_events_In in E|].
    elim (encode_warn _ _ _ _ E).
  - intros E. right. apply in_or_app. left. now apply warn_events_In.
Qed.

Lemma main_runs (args : Args) (w : world) (pre : str) (n : Z) :
  reaches_encoder args w pre n ->
  runs (fst (main args w)) = [cmd args w pre n].
Proof.
  intros H. rewrite (main_reaches args w pre n H). simpl fst.
  now rewrite runs_which, runs_app, runs_warn_events, encode_runs.
Qed.

(** C3: the warning is printed exactly when the sequence holds two integers
    or more and some adjacent pair does not differ by exactly one; a run
    that gets as far as gap detection goes on to the encoder with the same
    command and the same result whether or not the warning was printed.
    In [3,4,5,7,8] one pair, 5 and 7, is a gap; [1,2,3,4] gives no
    warning. *)
Theorem gap_warning :
  (forall nums,
     warns nums = true <->
     2 <= len nums /\
     exists i a b, nth_error nums i = Some a /\
                   nth_error nums (S i) = Some b /\ b - a <> 1) /\
  (forall args w pre n,
     reaches_encoder args w pre n ->
     let nums := nums_of pre (pngs_of w (indir args)) in
     main args w =
       (Which (lit "ffmpeg") :: warn_events nums ++ fst (encode args w pre n),
        snd (encode args w pre n)) /\
     (In (Stdout msg_warn_gaps) (fst (main args w)) <-> warns nums = true) /\
     runs (fst (main args w)) = [cmd args w pre n]) /\
  (filter (fun ab => negb (snd ab =? fst ab + 1)) (adjacent [3; 4; 5; 7; 8])
     = [(5, 7)] /\
   gaps [3; 4; 5; 7; 8] = [7] /\ warns [3; 4; 5; 7; 8] = true) /\
  (gaps [1; 2; 3; 4] = [] /\ warns [1; 2; 3; 4] = false).
Proof.
  split; [exact warns_spec|]. split.
  - intros args w pre n H nums. split; [exact (main_reaches args w pre n H)|].
    split; [exact (main_trace_warn args w pre n H)|exact (main_runs args w pre n H)].
  - repeat split; reflexivity.
Qed.

Lemma gap_warning_witness :
  reaches_encoder default_args gap_world (lit "f") 1 /\
  In (Stdout msg_warn_gaps) (fst (main default_args gap_world)) /\
  runs (fst (main default_args gap_world))
    = [cmd default_args gap_world (lit "f") 1] /\
  snd (main default_args gap_world) = inr tt.
Proof.
  assert (H : reaches_encoder default_args gap_world (lit "f") 1).
  { split; [reflexivity|]. split; [discriminate|]. split; reflexivity. }
  destruct (proj1 (proj2 gap_warning) default_args gap_world (lit "f") 1 H)
    as (Hmain & Hwarn & Hruns).
  split; [exact H|]. split; [apply Hwarn; reflexivity|].
  split; [exact Hruns|reflexivity].
Defined.

(** C4: when the encoder exits with status 0 and the output path does not
    exist or its size is not above zero, the run ends with the
    output-verification error, exit status 1, and without the success
    message; in any run, the success message is printed only after the
    encoder exited with status 0 and left an output of size above zero,
    and then the run ends with exit status 0. *)
Theorem output_verification :
  (forall args w pre n,
     reaches_encoder args w pre n ->
     fst (run w (cmd args w pre n)) = 0 ->
     (snd (run w (cmd args w pre n)) (out args) = None \/
      exists size, snd (run w (cmd args w pre n)) (out args) = Some size /\
                   size <= 0) ->
     snd (main args w) = inl (SystemExit msg_no_output) /\
     exit_code (main args w) = 1 /\
     ~ In (Stdout (msg_ok w (out args))) (fst (main args w))) /\
  (forall args w,
     In (Stdout (msg_ok w (out args))) (fst (main args w)) ->
     exists pre n size,
       reaches_encoder args w pre n /\
       fst (run w (cmd args w pre n)) = 0 /\
       snd (run w (cmd args w pre n)) (out args) = Some size /\ 0 < size /\
       snd (main args w) = inr tt /\ exit_code (main args w) = 0).
Proof.
  split.
  - intros args w pre n H Hrc Hout.
    assert (Hbad : output_ok (snd (run w (cmd args w pre n))) (out args) = false).
    { unfold output_ok. destruct Hout as [->|(size & -> & Hs)]; [reflexivity|].
      apply Z.ltb_ge. exact Hs. }
    assert (Hres : snd (main args w) = inl (SystemExit msg_no_output)).
    { rewrite (main_reaches args w pre n H). simpl snd.
      rewrite encode_cases. cbv zeta. now rewrite Hrc, Hbad. }
    split; [exact Hres|]. split; [unfold exit_code; now rewrite Hres|].
    rewrite (main_reaches args w pre n H). simpl fst.
    intros [E|E]; [discriminate E|]. apply in_app_or in E as [E|E].
    + apply warn_events_In in E as [_ E]. apply Stdout_inj in E.
      revert E. apply msg_ok_not_warn.
    + apply encode_ok in E as [_ E]. congruence.
  - intros args w Hin.
    destruct (main_cases args w)
      as [[_ H]|[(_ & _ & H)|[(_ & _ & _ & H)|[(_ & _ & _ & e & _ & H)|H]]]];
      try (rewrite H in Hin; simpl in Hin; intuition discriminate).
    destruct H as (pre & n & Hreach & H).
    rewrite H in Hin. simpl fst in Hin.
    destruct Hin as [E|E]; [discriminate E|]. apply in_app_or in E as [E|E].
    + apply warn_events_In in E as [_ E]. apply Stdout_inj in E.
      elim (msg_ok_not_warn _ _ E).
    + apply encode_ok in E as [Hrc Hok].
      destruct (proj1 (output_ok_spec _ _) Hok) as (size & Hsize & Hpos).
      exists pre, n, size.
      assert (Hres : snd (main args w) = inr tt).
      { rewrite H. simpl snd. rewrite encode_cases. cbv zeta.
        now rewrite Hrc, Hok. }
      split; [exact Hreach|]. split; [exact Hrc|]. split; [exact Hsize|].
      split; [exact Hpos|]. split; [exact Hres|].
      unfold exit_code. now rewrite Hres.
Qed.

Lemma output_verification_witness :
  snd (main default_args empty_output_world) = inl (SystemExit msg_no_output) /\
  exit_code (main default_args empty_output_world) = 1 /\
  ~ In (Stdout (msg_ok empty_output_world (out default_args)))
       (fst (main default_args empty_output_world)).
Proof.
  apply (proj1 output_verification default_args empty_output_world (lit "f") 1).
  - split; [reflexivity|]. split; [discriminate|]. split; reflexivity.
  - reflexivity.
  - right. exists 0. split; [reflexivity|]. discriminate.
Defined.

(** C5: when the encoder exits with a status other than 0, whatever it
    left at the output path, the run ends with the encode error whose
    message carries that status, exit status 1, no success message, and
    the encoder was run once. *)
Theorem encoder_failure (args : Args) (w : world) (pre : str) (n : Z) :
  reaches_encoder args w pre n ->
  fst (run w (cmd args w pre n)) <> 0 ->
  snd (main args w)
    = inl (SystemExit (msg_ffmpeg_failed (fst (run w (cmd args w pre n))))) /\
  (forall rc, msg_ffmpeg_failed rc
                = msg_ffmpeg_failed (fst (run w (cmd args w pre n))) ->
              rc = fst (run w (cmd args w pre n))) /\
  exit_code (main args w) = 1 /\
  ~ In (Stdout (msg_ok w (out args))) (fst (main args w)) /\
  runs (fst (main args w)) = [cmd args w pre n].
Proof.
  intros H Hrc.
  assert (Hres : snd (main args w)
    = inl (SystemExit (msg_ffmpeg_failed (fst (run w (cmd args w pre n)))))).
  { rewrite (main_reaches args w pre n H). simpl snd.
    rewrite encode_cases. cbv zeta. apply Z.eqb_neq in Hrc. now rewrite Hrc. }
  split; [exact Hres|]. split; [intros rc; apply msg_ffmpeg_failed_inj|].
  split; [unfold exit_code; now rewrite Hres|].
  split; [|exact (main_runs args w pre n H)].
  rewrite (main_reaches args w pre n H). simpl fst.
  intros [E|E]; [discriminate E|]. apply in_app_or in E as [E|E].
  - apply warn_events_In in E as [_ E]. apply Stdout_inj in E.
    revert E. apply msg_ok_not_warn.
  - apply encode_ok in E as [E _]. contradiction.
Qed.

Lemma encoder_failure_witness :
  snd (main default_args failing_world)
    = inl (SystemExit (lit "[ERROR] ffmpeg failed with code 1")) /\
  exit_code (main default_args failing_world) = 1 /\
  runs (fst (main default_args failing_world))
    = [cmd default_args failing_world (lit "f") 1].
Proof.
  assert (H : reaches_encoder default_args failing_world (lit "f") 1).
  { split; [reflexivity|]. split; [discriminate|]. split; reflexivity. }
  assert (Hrc : fst (run failing_world (cmd default_args failing_world (lit "f") 1)) <> 0)
    by discriminate.
  destruct (encoder_failure default_args failing_world (lit "f") 1 H Hrc)
    as (H1 & _ & H2 & _ & H3).
  split; [exact H1|]. split; [exact H2|exact H3].
Defined.

Lemma filter_none {A : Type} (f : A -> bool) (l : list A) :
  (forall x, In x l -> f x = false) -> filter f l = [].
Proof.
  induction l as [|x l IH]; simpl; [reflexivity|].
  intros H. rewrite (H x) by now left. apply IH. intros y Hy. apply H. now right.
Qed.



(** C10: when exactly one of --prefix and --pad is given, the scheme is
    inferred and the run is the run without either option; the options
    are used when both are given. *)
Theorem scheme_options_need_both (args : Args) (w : world) :
  (prefix args = None /\ pad args <> None) \/
  (prefix args <> None /\ pad args = None) ->
  (forall pngs, resolve_scheme args pngs = infer_padding_and_prefix pngs) /\
  main args w = main (without_scheme args) w /\
  (forall p k pngs,
     resolve_scheme (MkArgs (indir args) (out args) (Some p) (Some k)
                            (fps args) (crf args) (preset args)) pngs
     = inr (p, k)).
Proof.
  intros H.
  assert (Hr : forall pngs, resolve_scheme args pngs = infer_padding_and_prefix pngs).
  { intros pngs. unfold resolve_scheme.
    destruct (prefix args), (pad args); try reflexivity.
    destruct H as [[H _]|[_ H]]; discriminate. }
  split; [exact Hr|]. split; [|reflexivity].
  unfold main. change (indir (without_scheme args)) with (indir args).
  destruct (negb (is_dir w (indir args))); [reflexivity|].
  destruct (pngs_of w (indir args)) as [|f l]; [reflexivity|].
  rewrite Hr. reflexivity.
Qed.

Lemma scheme_options_need_both_witness :
  main (MkArgs (lit "frames_png") (lit "dropfilm.mp4") (Some (lit "zzz")) None
               30 18 medium) gap_world
  = main default_args gap_world.
Proof.
  refine (proj1 (proj2 (scheme_options_need_both
            (MkArgs (lit "frames_png") (lit "dropfilm.mp4") (Some (lit "zzz")) None
                    30 18 medium) gap_world _))).
  right. split; [discriminate|reflexivity].
Defined.

(* ================================================================== *)
(** ** Further properties of the script *)

(** *** Sorting does not depend on the order of its input *)

Section SortedUnique.
Context {A : Type} (leb : A -> A -> bool).
Hypothesis leb_total : forall x y, leb x y = true \/ leb y x = true.
Hypothesis leb_trans : forall x y z,
  leb x y = true -> leb y z = true -> leb x z = true.
Hypothesis leb_antisym : forall x y,
  leb x y = true -> leb y x = true -> x = y.

Lemma strongly_sorted_unique (l1 l2 : list A) :
  StronglySorted (fun x y => leb x y = true) l1 ->
  StronglySorted (fun x y => leb x y = true) l2 ->
  Permutation l1 l2 -> l1 = l2.
Proof.
  intros S1. revert l2. induction S1 as [|x t St IH Hx]; intros l2 S2 P.
  - now apply Permutation_nil in P.
  - destruct S2 as [|y u Su Hy].
    + symmetry in P. now apply Permutation_nil in P.
    + assert (Hrefl : forall z, leb z z = true)
        by (intros z; destruct (leb_total z z); assumption).
      assert (Hxy : leb x y = true).
      { assert (H : In y (x :: t))
          by (apply (Permutation_in y (Permutation_sym P)); now left).
        destruct H as [<-|H]; [apply Hrefl|].
        rewrite Forall_forall in Hx. auto. }
      assert (Hyx : leb y x = true).
      { assert (H : In x (y :: u)) by (apply (Permutation_in x P); now left).
        destruct H as [<-|H]; [apply Hrefl|].
        rewrite Forall_forall in Hy. auto. }
      assert (E : x = y) by auto. subst y.
      f_equal. apply IH; [exact Su|]. now apply Permutation_cons_inv in P.
Qed.

Lemma sorted_permutation (l1 l2 : list A) :
  Permutation l1 l2 -> sorted leb l1 = sorted leb l2.
Proof.
  intros P. apply strongly_sorted_unique;
    try (apply sorted_sorted; assumption).
  rewrite <- (sorted_perm leb l1), <- (sorted_perm leb l2). exact P.
Qed.
End SortedUnique.

Lemma pngs_of_In (w : world) (d f : str) :
  In f (pngs_of w d) <-> In f (iterdir w d) /\ is_png f = true.
Proof.
  unfold pngs_of. split.
  - intros H. apply (proj1 (sorted_In str_leb _ f)) in H. now apply filter_In.
  - intros H. apply (proj2 (sorted_In str_leb _ f)). now apply filter_In.
Qed.

(** X1: the list of candidates holds exactly the entries of the directory
    that are candidates, each as often as the directory lists it, in the
    lexicographic order of their names; a candidate is a name with a
    non-empty stem that ends with [.png] in any letter case. *)
Theorem enumerated_candidates (w : world) (d : str) :
  Permutation (pngs_of w d) (filter is_png (iterdir w d)) /\
  StronglySorted (fun a b => str_leb a b = true) (pngs_of w d) /\
  (forall f, In f (pngs_of w d) <->
     In f (iterdir w d) /\
     exists x e, f = x ++ e /\ x <> [] /\ ci_eq e (lit ".png")).
Proof.
  split; [symmetry; apply sorted_perm|].
  split; [apply sorted_sorted; [apply str_leb_total|apply str_leb_trans]|].
  intros f. rewrite pngs_of_In. split.
  - intros [H1 H2]. split; [exact H1|]. now apply is_png_inv.
  - intros [H1 (x & e & -> & Hx & He)]. split; [exact H1|].
    now apply is_png_intro.
Qed.

(** X2: the run depends on the listing of the directory only through the
    candidates it holds: entries that are not candidates, and the order in
    which the entries are listed, change nothing. *)
Theorem listing_order_irrelevant (args : Args) (w : world)
    (entries : str -> list str) :
  Permutation (filter is_png (iterdir w (indir args)))
              (filter is_png (entries (indir args))) ->
  main args (with_entries w entries) = main args w.
Proof.
  intros P.
  assert (E : pngs_of (with_entries w entries) (indir args)
              = pngs_of w (indir args)).
  { unfold pngs_of. symmetry.
    apply (sorted_permutation str_leb str_leb_total str_leb_trans str_leb_antisym).
    exact P. }
  unfold main. rewrite E. reflexivity.
Qed.

Lemma listing_order_irrelevant_witness :
  main default_args
    (with_entries good_world
       (fun _ => [lit "frame-00000.png"; lit "frame-00001.png";
                  lit "frame-00002.png"]))
  = main default_args good_world.
Proof.
  apply listing_order_irrelevant.
  change (Permutation
            [lit "frame-00002.png"; lit "frame-00000.png"; lit "frame-00001.png"]
            [lit "frame-00000.png"; lit "frame-00001.png"; lit "frame-00002.png"]).
  apply Permutation_cons_app with (l1 := [_; _]) (l2 := []).
  apply Permutation_refl.
Defined.

(** *** What [r] captures *)

Lemma rev_eq_inv {A : Type} (a b : list A) : rev a = rev b -> a = b.
Proof.
  intros H. rewrite <- (rev_involutive a), <- (rev_involutive b). now rewrite H.
Qed.

(** The extension and the optional final line feed fix the stem. *)
Lemma ext_tail_unique (a a' e e' nl nl' : str) :
  a ++ e ++ nl = a' ++ e' ++ nl' ->
  ci_eq e (lit ".png") -> ci_eq e' (lit ".png") ->
  at_end nl = true -> at_end nl' = true -> a = a'.
Proof.
  intros H He He' Hnl Hnl'.
  destruct (ci_ext_inv e He) as (c2 & c3 & c4 & -> & _ & _ & H4).
  destruct (ci_ext_inv e' He') as (c2' & c3' & c4' & -> & _ & _ & H4').
  apply g_not_newline in H4, H4'.
  apply (f_equal (@rev ascii)) in H. rewrite !rev_app_distr in H.
  destruct nl as [|c [|? ?]]; [| |discriminate Hnl];
    destruct nl' as [|c' [|? ?]]; try discriminate Hnl'; simpl in H, Hnl, Hnl'.
  - injection H as _ _ _ H. now apply rev_eq_inv.
  - injection H as -> _ _ _ _. congruence.
  - injection H as -> _ _ _ _. congruence.
  - injection H as _ _ _ _ H. now apply rev_eq_inv.
Qed.

Lemma r_splits_stem (s p d p' d' : str) :
  r_splits s p d -> r_splits s p' d' -> p ++ d = p' ++ d'.
Proof.
  intros (e & nl & E & _ & _ & _ & He & Hnl)
         (e' & nl' & E' & _ & _ & _ & He' & Hnl').
  apply (ext_tail_unique (p ++ d) (p' ++ d') e e' nl nl'); auto.
  rewrite <- !app_assoc. congruence.
Qed.

Lemma ends_with_digit_app (a b : str) :
  b <> [] -> forallb is_digit b = true -> ends_with_digit (a ++ b) = true.
Proof.
  intros Hb Hall. unfold ends_with_digit. rewrite rev_app_distr.
  destruct (rev b) as [|c q] eqn:E.
  - apply (f_equal (@rev ascii)) in E. rewrite rev_involutive in E.
    now elim Hb.
  - simpl. rewrite forallb_forall in Hall. apply Hall, in_rev.
    rewrite E. now left.
Qed.

(** A prefix that does not end with a digit is the shortest one. *)
Lemma digit_free_prefix_shortest (p d p' d' : str) :
  p ++ d = p' ++ d' -> forallb is_digit d' = true ->
  ends_with_digit p = false -> (length p <= length p')%nat.
Proof.
  intros E Hall Hp.
  destruct (Nat.le_gt_cases (length p) (length p')) as [|Hlt]; [assumption|].
  destruct (app_prefix_shorter _ _ _ _ E Hlt) as (x & t & ->).
  rewrite <- app_assoc in E. apply app_inv_head in E. subst d'.
  rewrite forallb_app in Hall. apply andb_true_iff in Hall as [Hall _].
  rewrite ends_with_digit_app in Hp; [discriminate| discriminate |exact Hall].
Qed.

(** [r] matches a name exactly when the name splits into a prefix without
    line feed that does not end with a digit, a digit run and the
    extension: the second group is the whole digit run before the
    extension. *)
Lemma match_r_digit_run (s p d : str) :
  match_items r s = Some [p; d] <->
  r_splits s p d /\ ends_with_digit p = false.
Proof.
  rewrite match_r_some. split.
  - intros (p0 & d0 & E & Hs & Hmin). injection E as <- <-.
    split; [exact Hs|].
    destruct (ends_with_digit p) eqn:Ed; [|reflexivity]. exfalso.
    unfold ends_with_digit in Ed. destruct (rev p) as [|c q] eqn:Er;
      [discriminate|].
    apply (f_equal (@rev ascii)) in Er. rewrite rev_involutive in Er.
    simpl in Er. subst p.
    destruct Hs as (e & nl & E & Hp & Hd & Hall & He & Hnl).
    apply no_newline_app in Hp as [Hp _].
    assert (Hs' : r_splits s (rev q) (c :: d)).
    { exists e, nl. rewrite E, <- app_assoc. simpl.
      repeat split; auto; try discriminate.
      unfold all_digits. simpl. now rewrite Ed. }
    apply Hmin in Hs'. rewrite length_app in Hs'. simpl in Hs'. lia.
  - intros [Hs Hp]. exists p, d. split; [reflexivity|]. split; [exact Hs|].
    intros p' d' Hs'.
    apply (digit_free_prefix_shortest p d p' d'); auto.
    + now apply (r_splits_stem s).
    + now destruct Hs' as (e & nl & _ & _ & _ & Hall & _).
Qed.

(** X3: a scheme that [infer_padding_and_prefix] returns has a width of at
    least 1 and a prefix that holds no line feed and does not end with a
    digit: the width counts the whole digit run before the extension of the
    name it was read from. *)
Theorem inferred_scheme_shape (files : list str) (pre : str) (n : Z) :
  infer_padding_and_prefix files = inr (pre, n) ->
  1 <= n /\ no_newline pre /\ ends_with_digit pre = false /\
  exists f d, In f files /\ r_splits f pre d /\ n = len d /\
    forall p' d', r_splits f p' d' ->
      (length d' <= length d)%nat /\ p' ++ d' = pre ++ d.
Proof.
  intros H. apply infer_first_match, first_match_least in H.
  destruct H as (f & d & Hf & Hm & -> & _).
  assert (E : match_items r f = Some [pre; d])
    by (apply match_r_some; now exists pre, d).
  apply match_r_digit_run in E as [Hs Hp].
  pose proof Hs as (e & nl & _ & Hnl & Hd & _).
  split.
  { unfold len. destruct d; [now elim Hd|]. simpl length. lia. }
  split; [exact Hnl|]. split; [exact Hp|].
  exists f, d. split; [exact Hf|]. split; [exact Hs|]. split; [reflexivity|].
  intros p' d' Hs'. pose proof (r_splits_stem f p' d' pre d Hs' Hs) as E.
  split; [|exact E].
  destruct Hm as [_ Hmin]. specialize (Hmin p' d' Hs').
  apply (f_equal (@length ascii)) in E. rewrite !length_app in E. lia.
Qed.

Lemma inferred_scheme_shape_witness :
  1 <= 1 /\ no_newline (lit "a1b") /\ ends_with_digit (lit "a1b") = false.
Proof.
  destruct (inferred_scheme_shape [lit "a1b2.png"] (lit "a1b") 1 eq_refl)
    as (H1 & H2 & H3 & _).
  split; [exact H1|]. split; [exact H2|exact H3].
Defined.

Lemma filter_all {A : Type} (f : A -> bool) (l : list A) :
  (forall x, In x l -> f x = true) -> filter f l = l.
Proof.
  induction l as [|x l IH]; simpl; [reflexivity|].
  intros H. rewrite (H x) by now left. f_equal. apply IH.
  intros y Hy. apply H. now right.
Qed.

(** X4: when every name of a non-empty list is the same prefix (without
    line feed, not ending with a digit), a run of [w >= 1] digits and the
    extension, [infer_padding_and_prefix] returns that prefix and [w], and
    [num_re] then matches every name of the list, so that the numeric
    sequence has one entry per name. *)
Theorem consistent_naming (pre : str) (w : Z) (files : list str) :
  files <> [] -> no_newline pre -> ends_with_digit pre = false -> 0 < w ->
  (forall f, In f files -> consistent_name pre w f) ->
  infer_padding_and_prefix files = inr (pre, w) /\
  (forall f, In f files -> matches_num_re pre f = true) /\
  length (nums_of pre files) = length files.
Proof.
  intros Hne Hnl Hpre Hw Hall.
  assert (Hr : forall f, In f files ->
            exists d, match_items r f = Some [pre; d] /\ len d = w).
  { intros f Hf. destruct (Hall f Hf) as (d & e & -> & Hd & Hlen & He).
    exists d. split; [|exact Hlen]. apply match_r_digit_run.
    split; [|exact Hpre]. exists e, []. rewrite app_nil_r.
    repeat split; auto. intros ->. unfold len in Hlen. simpl in Hlen. lia. }
  assert (Hm : forall f, In f files -> matches_num_re pre f = true).
  { intros f Hf. destruct (Hr f Hf) as (d & E & _).
    unfold matches_num_re. now rewrite (r_match_num_re f pre d E). }
  split; [|split; [exact Hm|]].
  - unfold infer_padding_and_prefix.
    destruct (sorted str_leb files) as [|f rest] eqn:Es.
    + pose proof (sorted_perm str_leb files) as P. rewrite Es in P.
      apply Permutation_sym, Permutation_nil in P. now elim Hne.
    + assert (Hf : In f files).
      { apply (proj1 (sorted_In str_leb files f)). rewrite Es. now left. }
      destruct (Hr f Hf) as (d & E & <-). cbn [infer_loop]. now rewrite E.
  - rewrite nums_of_length. now rewrite filter_all.
Qed.

Lemma consistent_naming_witness :
  infer_padding_and_prefix
    [lit "frame-00001.png"; lit "frame-00000.PNG"] = inr (lit "frame-", 5).
Proof.
  refine (proj1 (consistent_naming (lit "frame-") 5
            [lit "frame-00001.png"; lit "frame-00000.PNG"] _ _ _ _ _)).
  - discriminate.
  - reflexivity.
  - reflexivity.
  - reflexivity.
  - intros f [<-|[<-|[]]].
    + exists (lit "00001"), (lit ".png"). repeat split.
    + exists (lit "00000"), (lit ".PNG"). repeat split.
Defined.

(** *** The numeric sequence and its gaps *)

Lemma gaps_cons (x y : Z) (l : list Z) :
  gaps (x :: y :: l) = (if y =? x + 1 then [] else [y]) ++ gaps (y :: l).
Proof.
  unfold gaps, adjacent. cbn [tl combine filter fst snd].
  now destruct (y =? x + 1).
Qed.

Lemma gaps_nil_consecutive (nums : list Z) :
  gaps nums = [] <-> nums = consecutive (hd 0 nums) (length nums).
Proof.
  destruct nums as [|x l]; [split; intros _; reflexivity|].
  cbn [hd]. revert x. induction l as [|y l IH]; intros x.
  - split; intros _; reflexivity.
  - rewrite gaps_cons. change (length (x :: y :: l)) with (S (length (y :: l))).
    cbn [consecutive].
    destruct (Z.eqb_spec y (x + 1)) as [->|Hne].
    + cbn [app]. rewrite IH. split.
      * intros H. f_equal. exact H.
      * intros H. exact (f_equal (@tl Z) H).
    + cbn [app]. split; [discriminate|]. intros H.
      apply (f_equal (@tl Z)), (f_equal (hd 0)) in H. now elim Hne.
Qed.

Lemma consecutive_In (a : Z) (n : nat) (k : Z) :
  In k (consecutive a n) <-> a <= k < a + Z.of_nat n.
Proof.
  revert a. induction n as [|n IH]; intros a; cbn [consecutive In].
  - lia.
  - rewrite IH. lia.
Qed.

Lemma consecutive_NoDup (a : Z) (n : nat) : NoDup (consecutive a n).
Proof.
  revert a. induction n as [|n IH]; intros a; cbn [consecutive]; constructor.
  - rewrite consecutive_In. lia.
  - apply IH.
Qed.

Lemma warns_false_gaps (nums : list Z) : warns nums = false <-> gaps nums = [].
Proof.
  unfold warns. split.
  - intros H. destruct nums as [|x [|y l]]; [reflexivity|reflexivity|].
    assert (E : (2 <=? len (x :: y :: l)) = true).
    { apply Z.leb_le. unfold len. simpl length. lia. }
    rewrite E in H. simpl andb in H. apply negb_false_iff in H.
    now destruct (gaps (x :: y :: l)).
  - intros ->. apply andb_false_r.
Qed.

Lemma warns_false_NoDup (nums : list Z) : warns nums = false -> NoDup nums.
Proof.
  intros H. apply warns_false_gaps, gaps_nil_consecutive in H. rewrite H.
  apply consecutive_NoDup.
Qed.

(** X5: no warning is printed exactly when the sequence is a run of
    consecutive integers that starts at its first entry (an empty or
    one-entry sequence included); the entries are then pairwise
    distinct. *)
Theorem no_warning_iff_consecutive (nums : list Z) :
  (warns nums = false <-> nums = consecutive (hd 0 nums) (length nums)) /\
  (warns nums = false -> NoDup nums).
Proof.
  assert (H : warns nums = false <->
              nums = consecutive (hd 0 nums) (length nums)).
  { rewrite warns_false_gaps. apply gaps_nil_consecutive. }
  split; [exact H|]. apply warns_false_NoDup.
Qed.

Lemma no_warning_iff_consecutive_witness : NoDup [7; 8; 9].
Proof.
  exact (proj2 (no_warning_iff_consecutive [7; 8; 9]) eq_refl).
Defined.

Lemma nums_of_perm (pre : str) (pngs : list str) :
  Permutation (nums_of pre pngs)
    (flat_map (fun f =>
                 match match_items (num_re pre) f with
                 | Some m => [int_of_digits (group m 1)]
                 | None => []
                 end) pngs).
Proof. unfold nums_of. symmetry. apply sorted_perm. Qed.

(** X6: when two entries of the candidate list are matched by [num_re]
    and their digit runs have the same value (as [f1.png] and [f01.png]
    do), the warning is printed. *)
Theorem duplicate_number_warns (pre : str) (l1 l2 l3 : list str)
    (f g d d' : str) :
  match_items (num_re pre) f = Some [d] ->
  match_items (num_re pre) g = Some [d'] ->
  int_of_digits d = int_of_digits d' ->
  warns (nums_of pre (l1 ++ f :: l2 ++ g :: l3)) = true.
Proof.
  intros Hf Hg E.
  destruct (warns (nums_of pre (l1 ++ f :: l2 ++ g :: l3))) eqn:Hw;
    [reflexivity|exfalso].
  apply warns_false_NoDup in Hw.
  apply (Permutation_NoDup (nums_of_perm pre _)) in Hw.
  rewrite flat_map_app in Hw. cbn [flat_map] in Hw. rewrite Hf in Hw.
  rewrite flat_map_app in Hw. cbn [flat_map] in Hw. rewrite Hg in Hw.
  cbn [group Nat.sub nth app] in Hw.
  apply NoDup_remove_2 in Hw. apply Hw.
  apply in_or_app. right. apply in_or_app. right. left. now symmetry.
Qed.

Lemma duplicate_number_warns_witness :
  warns (nums_of (lit "f") ([] ++ lit "f01.png" :: [] ++ lit "f1.png" :: []))
  = true.
Proof.
  apply (duplicate_number_warns (lit "f") [] [] [] (lit "f01.png")
           (lit "f1.png") (lit "01") (lit "1")); reflexivity.
Defined.

(** X7: the value of a digit run is its decimal value: it is the number
    that the decimal notation of the standard library reads from the same
    digits, and [int(str(n)) = n] for every natural number [n].  It is
    positional: the value of [a ++ b] is the value of [a] times
    [10 ^ len b] plus the value of [b]; leading zeros do not change it, and
    a run of [n] digits has a value from 0 to [10 ^ n - 1]. *)
Theorem int_of_digits_positional :
  (forall a b,
     int_of_digits (a ++ b) = int_of_digits a * 10 ^ len b + int_of_digits b) /\
  (forall k d, int_of_digits (repeat "0"%char k ++ d) = int_of_digits d) /\
  (forall d, all_digits d -> 0 <= int_of_digits d <= 10 ^ len d - 1) /\
  (forall d u,
     NilEmpty.uint_of_string (string_of_list_ascii d) = Some u ->
     int_of_digits d = Z.of_uint u) /\
  (forall n, 0 <= n -> int_of_digits (str_of_int n) = n).
Proof.
  assert (Happ : forall a b,
     int_of_digits (a ++ b) = int_of_digits a * 10 ^ len b + int_of_digits b).
  { intros a b. unfold int_of_digits at 1. rewrite fold_left_app.
    apply int_of_digits_acc. }
  split; [exact Happ|]. split; [|split; [|split]].
  - intros k d. rewrite Happ.
    assert (Hz : int_of_digits (repeat "0"%char k) = 0).
    { induction k as [|k IH]; [reflexivity|].
      change (repeat "0"%char (S k)) with (["0"%char] ++ repeat "0"%char k).
      rewrite Happ, IH. reflexivity. }
    rewrite Hz. lia.
  - intros d Hd. pose proof (int_of_digits_bound d Hd). lia.
  - intros d u E. now apply int_of_digits_uint.
  - exact int_of_str_of_int.
Qed.

Lemma int_of_digits_positional_witness :
  0 <= int_of_digits (lit "00042") <= 10 ^ len (lit "00042") - 1 /\
  int_of_digits (str_of_int 42) = 42.
Proof.
  split.
  - exact (proj1 (proj2 (proj2 int_of_digits_positional)) (lit "00042") eq_refl).
  - apply (proj2 (proj2 (proj2 (proj2 int_of_digits_positional)))). lia.
Defined.

(** *** The outcomes of a run *)

Lemma exit_msg_tag {A : Type} (a b : str) :
  @inl exn A (SystemExit a) = inl (SystemExit b) -> msg_tag a = msg_tag b.
Proof. intros H. injection H as H. now rewrite H. Qed.

(** The seven ways a run can end, with the trace of each. *)
Lemma main_outcomes (args : Args) (w : world) :
  let d := indir args in
  (is_dir w d = false /\
   main args w = ([], inl (SystemExit (msg_no_indir w d)))) \/
  (is_dir w d = true /\ pngs_of w d = [] /\
   main args w = ([], inl (SystemExit (msg_no_png w d)))) \/
  (is_dir w d = true /\ pngs_of w d <> [] /\ which w (lit "ffmpeg") = false /\
   main args w = ([Which (lit "ffmpeg")], inl (SystemExit msg_no_ffmpeg))) \/
  (is_dir w d = true /\ pngs_of w d <> [] /\ which w (lit "ffmpeg") = true /\
   (prefix args = None \/ pad args = None) /\
   (forall f, In f (pngs_of w d) -> match_items r f = None) /\
   main args w = ([Which (lit "ffmpeg")], inl (RuntimeError msg_cannot_infer))) \/
  (exists pre n, reaches_encoder args w pre n /\
     fst (run w (cmd args w pre n)) <> 0 /\
     main args w =
       (Which (lit "ffmpeg") :: warn_events (nums_of pre (pngs_of w d))
          ++ [Stdout (msg_running (cmd args w pre n)); Run (cmd args w pre n)],
        inl (SystemExit (msg_ffmpeg_failed (fst (run w (cmd args w pre n))))))) \/
  (exists pre n, reaches_encoder args w pre n /\
     fst (run w (cmd args w pre n)) = 0 /\
     output_ok (snd (run w (cmd args w pre n))) (out args) = false /\
     main args w =
       (Which (lit "ffmpeg") :: warn_events (nums_of pre (pngs_of w d))
          ++ [Stdout (msg_running (cmd args w pre n)); Run (cmd args w pre n)],
        inl (SystemExit msg_no_output))) \/
  (exists pre n, reaches_encoder args w pre n /\
     fst (run w (cmd args w pre n)) = 0 /\
     output_ok (snd (run w (cmd args w pre n))) (out args) = true /\
     main args w =
       (Which (lit "ffmpeg") :: warn_events (nums_of pre (pngs_of w d))
          ++ [Stdout (msg_running (cmd args w pre n)); Run (cmd args w pre n);
              Stdout (msg_ok w (out args))],
        inr tt)).
Proof.
  intros d. subst d.
  destruct (main_cases args w)
    as [H|[H|[H|[(Hd & Hp & Hw & e & He & Hm)|(pre & n & Hr & Hm)]]]];
    auto.
  - right. right. right. left.
    assert (Hopt : prefix args = None \/ pad args = None).
    { unfold resolve_scheme in He.
      destruct (prefix args); [|now left]. destruct (pad args); [|now right].
      discriminate He. }
    assert (Hi : infer_padding_and_prefix (pngs_of w (indir args)) = inl e).
    { unfold resolve_scheme in He.
      destruct Hopt as [E|E]; rewrite E in He;
        [|destruct (prefix args)]; exact He. }
    apply infer_none in Hi as [-> Hi]. repeat split; auto.
  - do 4 right. rewrite encode_cases in Hm. cbv zeta in Hm.
    destruct (fst (run w (cmd args w pre n)) =? 0) eqn:Erc; cbn [negb] in Hm.
    + apply Z.eqb_eq in Erc.
      destruct (output_ok (snd (run w (cmd args w pre n))) (out args)) eqn:Eo;
        cbn [fst snd] in Hm.
      * right. right. exists pre, n. repeat split; auto; apply Hr.
      * right. left. exists pre, n. repeat split; auto; apply Hr.
    + apply Z.eqb_neq in Erc. cbn [fst snd] in Hm.
      left. exists pre, n. repeat split; auto; apply Hr.
Qed.

Lemma reaches_unique (args : Args) (w : world) (p p' : str) (n n' : Z) :
  reaches_encoder args w p n -> reaches_encoder args w p' n' ->
  p = p' /\ n = n'.
Proof.
  intros (_ & _ & _ & H) (_ & _ & _ & H'). rewrite H in H'.
  injection H' as -> ->. now split.
Qed.

Ltac outcomes args w :=
  destruct (main_outcomes args w) as
    [(O1 & Hm)|[(O1 & O2 & Hm)|[(O1 & O2 & O3 & Hm)
    |[(O1 & O2 & O3 & O4 & O5 & Hm)
    |[(pre0 & n0 & Hre & O1 & Hm)
    |[(pre0 & n0 & Hre & O1 & O2 & Hm)
    |(pre0 & n0 & Hre & O1 & O2 & Hm)]]]]]];
  rewrite Hm; cbn [fst snd].

Ltac other_message H :=
  try discriminate H;
  try (let T := fresh "T" in
       pose proof (exit_msg_tag _ _ H) as T; vm_compute in T; discriminate T).

Lemma no_scheme_unresolved (args : Args) (pngs : list str) (p : str) (n : Z) :
  prefix args = None \/ pad args = None ->
  (forall f, In f pngs -> match_items r f = None) ->
  resolve_scheme args pngs <> inr (p, n).
Proof.
  intros Hopt Hnone H.
  assert (E : infer_padding_and_prefix pngs
              = inl (RuntimeError msg_cannot_infer))
    by now apply infer_none.
  unfold resolve_scheme in H.
  destruct Hopt as [Ho|Ho]; rewrite Ho in H; [|destruct (prefix args)];
    congruence.
Qed.

Ltac other_cause :=
  exfalso;
  repeat match goal with
         | H : reaches_encoder _ _ _ _ |- _ =>
             let a := fresh in let b := fresh in
             let c := fresh in let d := fresh in
             destruct H as (a & b & c & d)
         end;
  try congruence;
  match goal with
  | Ho : prefix _ = None \/ pad _ = None,
    Hn : forall f, In f _ -> match_items r f = None,
    Hr : resolve_scheme _ _ = inr _ |- _ =>
      exact (no_scheme_unresolved _ _ _ _ Ho Hn Hr)
  end.

(** X8: each way a run can end identifies its cause: the message of the
    [SystemExit], or the normal end, holds exactly under one condition on
    the directory, the search path and the encoder, the conditions being
    checked in the order directory, candidates, ffmpeg, scheme, exit code,
    output. *)
Theorem outcome_identifies_cause (args : Args) (w : world) :
  let d := indir args in
  let o := snd (main args w) in
  (o = inl (SystemExit (msg_no_indir w d)) <-> is_dir w d = false) /\
  (o = inl (SystemExit (msg_no_png w d)) <->
     is_dir w d = true /\ pngs_of w d = []) /\
  (o = inl (SystemExit msg_no_ffmpeg) <->
     is_dir w d = true /\ pngs_of w d <> [] /\
     which w (lit "ffmpeg") = false) /\
  (forall rc,
     o = inl (SystemExit (msg_ffmpeg_failed rc)) <->
     rc <> 0 /\
     exists pre n, reaches_encoder args w pre n /\
                   fst (run w (cmd args w pre n)) = rc) /\
  (o = inl (SystemExit msg_no_output) <->
     exists pre n, reaches_encoder args w pre n /\
       fst (run w (cmd args w pre n)) = 0 /\
       output_ok (snd (run w (cmd args w pre n))) (out args) = false) /\
  (o = inr tt <->
     exists pre n, reaches_encoder args w pre n /\
       fst (run w (cmd args w pre n)) = 0 /\
       output_ok (snd (run w (cmd args w pre n))) (out args) = true).
Proof.
  intros d o. subst d o.
  refine (conj _ (conj _ (conj _ (conj _ (conj _ _))))).
  - split.
    + outcomes args w; intros H; other_message H; assumption.
    + intros H. outcomes args w; try reflexivity; other_cause.
  - split.
    + outcomes args w; intros H; other_message H; now split.
    + intros [H1 H2]. outcomes args w; try reflexivity; other_cause.
  - split.
    + outcomes args w; intros H; other_message H; now repeat split.
    + intros (H1 & H2 & H3). outcomes args w; try reflexivity; other_cause.
  - intros rc. split.
    + outcomes args w; intros H; other_message H.
      injection H as H. apply str_of_int_inj in H. subst rc. eauto.
    + intros (Hrc & pre & n & Hr & E). outcomes args w;
        try (destruct (reaches_unique _ _ _ _ _ _ Hr Hre) as [<- <-]);
        try congruence; other_cause.
  - split.
    + outcomes args w; intros H; other_message H. eauto.
    + intros (pre & n & Hr & E1 & E2). outcomes args w;
        try (destruct (reaches_unique _ _ _ _ _ _ Hr Hre) as [<- <-]);
        try congruence; other_cause.
  - split.
    + outcomes args w; intros H; other_message H. eauto.
    + intros (pre & n & Hr & E1 & E2). outcomes args w;
        try (destruct (reaches_unique _ _ _ _ _ _ Hr Hre) as [<- <-]);
        try congruence; other_cause.
Qed.

Lemma candidates_unmatched (w : world) (d : str) :
  (forall f, In f (pngs_of w d) -> match_items r f = None) <->
  (forall f, In f (iterdir w d) -> is_png f = true ->
     forall p x, ~ cand_splits f p x).
Proof.
  split.
  - intros H f Hf Hp p x Hs.
    assert (Hin : In f (pngs_of w d)) by (apply pngs_of_In; now split).
    pose proof (proj1 (match_r_none f) (H f Hin)) as Hn. apply (Hn p x).
    now apply r_splits_cand.
  - intros H f Hf. apply pngs_of_In in Hf as [Hf Hp].
    apply match_r_none. intros p x Hs. apply (H f Hf Hp p x).
    now apply r_splits_cand.
Qed.

(** X9: a run ends with the uncaught [RuntimeError] of the inference
    exactly when the directory exists, holds a candidate, ffmpeg is found,
    one of --prefix and --pad is missing and no candidate splits into
    prefix, digits and extension; ffmpeg has then been looked up and not
    run, and the exit status is 1.  With both options given this error
    cannot occur. *)
Theorem inference_error (args : Args) (w : world) :
  let d := indir args in
  (forall m,
     snd (main args w) = inl (RuntimeError m) <->
     m = msg_cannot_infer /\
     is_dir w d = true /\ pngs_of w d <> [] /\ which w (lit "ffmpeg") = true /\
     (prefix args = None \/ pad args = None) /\
     forall f, In f (iterdir w d) -> is_png f = true ->
       forall p x, ~ cand_splits f p x) /\
  (forall m,
     snd (main args w) = inl (RuntimeError m) ->
     fst (main args w) = [Which (lit "ffmpeg")] /\
     exit_code (main args w) = 1).
Proof.
  intros d. subst d. split.
  - intros m. rewrite <- candidates_unmatched. split.
    + outcomes args w; intros H; other_message H.
      injection H as <-. now repeat split.
    + intros (-> & H1 & H2 & H3 & H4 & H5).
      outcomes args w; try reflexivity; other_cause.
  - intros m. unfold exit_code.
    outcomes args w; intros H; other_message H. now split.
Qed.

Lemma in_trace_cases (nums : list Z) (t : list event) (e : event) :
  In e (Which (lit "ffmpeg") :: warn_events nums ++ t) ->
  e = Which (lit "ffmpeg") \/ e = Stdout msg_warn_gaps \/ In e t.
Proof.
  intros [<-|H]; [now left|]. right.
  apply in_app_or in H as [H|H]; [|now right].
  left. now apply warn_events_In in H.
Qed.

Lemma Which_inj (a b : str) : Which a = Which b -> a = b.
Proof. intros H. now injection H. Qed.

Lemma Run_inj (a b : list str) : Run a = Run b -> a = b.
Proof. intros H. now injection H. Qed.

(** The three shapes of a trace. *)
Lemma main_trace_shape (args : Args) (w : world) :
  fst (main args w) = [] \/
  (is_dir w (indir args) = true /\ pngs_of w (indir args) <> [] /\
   fst (main args w) = [Which (lit "ffmpeg")]) \/
  (exists pre n t,
     reaches_encoder args w pre n /\
     (t = [] \/ t = [Stdout (msg_ok w (out args))]) /\
     fst (main args w) =
       Which (lit "ffmpeg")
       :: warn_events (nums_of pre (pngs_of w (indir args)))
       ++ Stdout (msg_running (cmd args w pre n))
          :: Run (cmd args w pre n) :: t).
Proof.
  outcomes args w; auto.
  - right. right. exists pre0, n0, []. auto.
  - right. right. exists pre0, n0, []. auto.
  - right. right. exists pre0, n0, [Stdout (msg_ok w (out args))]. auto.
Qed.

(** What a run does after the arguments were parsed comes after the
    checks that guard it. *)
Lemma main_effects (args : Args) (w : world) :
  (forall x, In (Which x) (fst (main args w)) ->
     x = lit "ffmpeg" /\ is_dir w (indir args) = true /\
     pngs_of w (indir args) <> []) /\
  (forall m, In (Stdout m) (fst (main args w)) ->
     exists pre n, reaches_encoder args w pre n) /\
  (forall c, In (Run c) (fst (main args w)) ->
     exists pre n, reaches_encoder args w pre n /\ c = cmd args w pre n) /\
  (length (runs (fst (main args w))) <= 1)%nat.
Proof.
  destruct (main_trace_shape args w)
    as [E|[(Hd & Hp & E)|(pre & n & t & Hr & Ht & E)]]; rewrite E.
  - refine (conj _ (conj _ (conj _ _))); try (intros ? []).
    simpl. lia.
  - refine (conj _ (conj _ (conj _ _))).
    + intros x [H|[]]. apply Which_inj in H. now subst x.
    + intros m [H|[]]. discriminate H.
    + intros c [H|[]]. discriminate H.
    + simpl. lia.
  - refine (conj _ (conj _ (conj _ _))).
    + intros x H. destruct Hr as (Hd & Hp & _).
      apply in_trace_cases in H as [H|[H|H]].
      * apply Which_inj in H. now subst x.
      * discriminate H.
      * destruct H as [H|[H|H]]; try discriminate H.
        destruct Ht as [-> | ->]; [destruct H|].
        destruct H as [H|[]]. discriminate H.
    + intros m _. now exists pre, n.
    + intros c H. exists pre, n. split; [exact Hr|].
      apply in_trace_cases in H as [H|[H|H]]; try discriminate H.
      destruct H as [H|[H|H]]; try discriminate H.
      * apply Run_inj in H. now subst c.
      * destruct Ht as [-> | ->]; [destruct H|].
        destruct H as [H|[]]. discriminate H.
    + rewrite runs_which, runs_app, runs_warn_events.
      destruct Ht as [-> | ->]; simpl; lia.
Qed.

(** After the arguments were parsed, the exit status is 0 exactly when
    the success message was printed. *)
Lemma main_success (args : Args) (w : world) :
  (exit_code (main args w) = 0 <->
   In (Stdout (msg_ok w (out args))) (fst (main args w))) /\
  (exit_code (main args w) = 0 ->
   exists pre n,
     reaches_encoder args w pre n /\
     fst (main args w) =
       Which (lit "ffmpeg")
       :: warn_events (nums_of pre (pngs_of w (indir args)))
       ++ [Stdout (msg_running (cmd args w pre n)); Run (cmd args w pre n);
           Stdout (msg_ok w (out args))]) /\
  (exit_code (main args w) <> 0 -> exit_code (main args w) = 1).
Proof.
  assert (Hno : forall nums c,
            ~ In (Stdout (msg_ok w (out args)))
                 (Which (lit "ffmpeg") :: warn_events nums
                    ++ [Stdout (msg_running c); Run c])).
  { intros nums c H. apply in_trace_cases in H as [H|[H|H]];
      [discriminate H| |].
    - apply Stdout_inj in H. revert H. apply msg_ok_not_warn.
    - destruct H as [H|[H|[]]]; [|discriminate H].
      apply Stdout_inj in H. symmetry in H. revert H. apply msg_ok_not_running. }
  unfold exit_code. refine (conj _ (conj _ _)).
  - outcomes args w; split; try discriminate; try reflexivity; intros H;
      first [ elim (Hno _ _ H)
            | destruct H as [H|[]]; discriminate H
            | solve [right; apply in_or_app; right; simpl; auto]
            | destruct H ].
  - outcomes args w; try discriminate. intros _. now exists pre0, n0.
  - outcomes args w; intros H; try reflexivity. now elim H.
Qed.

Lemma main_exit_one (args : Args) (w : world) :
  exit_code (main args w) = 1 <->
  ~ exists pre n,
      reaches_encoder args w pre n /\
      fst (run w (cmd args w pre n)) = 0 /\
      output_ok (snd (run w (cmd args w pre n))) (out args) = true.
Proof.
  unfold exit_code. outcomes args w;
    (split;
     [ try discriminate; intros _ (pre & n & Hr & E1 & E2);
       try (destruct (reaches_unique _ _ _ _ _ _ Hr Hre) as [<- <-]);
       try congruence; other_cause
     | intros H; try reflexivity; elim H; exists pre0, n0; auto ]).
Qed.

Lemma main_exit_zero (args : Args) (w : world) :
  exit_code (main args w) = 0 ->
  exists pre n,
    reaches_encoder args w pre n /\
    fst (run w (cmd args w pre n)) = 0 /\
    output_ok (snd (run w (cmd args w pre n))) (out args) = true /\
    fst (main args w) =
      Which (lit "ffmpeg")
      :: warn_events (nums_of pre (pngs_of w (indir args)))
      ++ [Stdout (msg_running (cmd args w pre n)); Run (cmd args w pre n);
          Stdout (msg_ok w (out args))].
Proof.
  intros H. unfold exit_code in H. revert H.
  outcomes args w; intros H; try discriminate H.
  exists pre0, n0. auto.
Qed.

(** X10: nothing happens before the checks that guard it.  ffmpeg is
    looked up only when the arguments were parsed and name an existing
    directory with a candidate.  Apart from the help text of [argparse],
    something is written to standard output only after the arguments, the
    directory, the candidates, ffmpeg and the scheme were found, and so is
    the encoder run: with the fixed flags, the frame rate, the pattern
    built from the resolved scheme, the preset, the quality and the output
    path, and at most once. *)
Theorem effects_follow_checks (p : parsed) (w : world) :
  (forall x, In (Which x) (fst (script p w)) ->
     exists args, p = Namespace args /\ x = lit "ffmpeg" /\
       is_dir w (indir args) = true /\ pngs_of w (indir args) <> []) /\
  (forall m, In (Stdout m) (fst (script p w)) ->
     p = HelpExit m \/
     exists args pre n, p = Namespace args /\ reaches_encoder args w pre n) /\
  (forall c, In (Run c) (fst (script p w)) ->
     exists args pre n,
       p = Namespace args /\ reaches_encoder args w pre n /\
       c = [ lit "ffmpeg"; lit "-y";
             lit "-framerate"; str_of_int (fps args);
             lit "-i";
             joinpath w (indir args)
               (pre ++ lit "%0" ++ str_of_int n ++ lit "d.png");
             lit "-c:v"; lit "libx264";
             lit "-preset"; preset_name (preset args);
             lit "-crf"; str_of_int (crf args);
             lit "-pix_fmt"; lit "yuv420p";
             path_str w (out args) ]) /\
  (length (runs (fst (script p w))) <= 1)%nat.
Proof.
  destruct p as [args|t|t]; cbn [script fst].
  - destruct (main_effects args w) as (H1 & H2 & H3 & H4).
    refine (conj _ (conj _ (conj _ H4))).
    + intros x Hx. exists args. split; [reflexivity|]. now apply H1.
    + intros m Hm. right. destruct (H2 m Hm) as (pre & n & Hr).
      now exists args, pre, n.
    + intros c Hc. destruct (H3 c Hc) as (pre & n & Hr & ->).
      exists args, pre, n. split; [reflexivity|]. split; [exact Hr|].
      reflexivity.
  - refine (conj _ (conj _ (conj _ _))).
    + intros x [H|[]]. discriminate H.
    + intros m [H|[]]. left. apply Stdout_inj in H. now subst m.
    + intros c [H|[]]. discriminate H.
    + cbn. lia.
  - refine (conj _ (conj _ (conj _ _))); try (intros ? []). cbn. lia.
Qed.

(** X11: the process ends with exit status 0 exactly when [argparse]
    ended it after the help text, or when it printed the success message;
    in the second case the encoder returned 0, the output exists with a
    size above zero, and the trace is the lookup of ffmpeg, the warning if
    there are gaps, the command line, the run of the encoder and the
    success message, in this order.  The status is 2 exactly for a command
    line that [argparse] rejects, and 1 exactly when the arguments were
    parsed and the run did not get to an output that passes the check. *)
Theorem success_trace (p : parsed) (w : world) :
  (snd (script p w) = 0 <->
   (exists t, p = HelpExit t) \/
   exists args, p = Namespace args /\
     In (Stdout (msg_ok w (out args))) (fst (script p w))) /\
  (forall args, p = Namespace args -> snd (script p w) = 0 ->
   exists pre n,
     reaches_encoder args w pre n /\
     fst (run w (cmd args w pre n)) = 0 /\
     (exists size, snd (run w (cmd args w pre n)) (out args) = Some size /\
                   0 < size) /\
     fst (script p w) =
       Which (lit "ffmpeg")
       :: warn_events (nums_of pre (pngs_of w (indir args)))
       ++ [Stdout (msg_running (cmd args w pre n)); Run (cmd args w pre n);
           Stdout (msg_ok w (out args))]) /\
  (snd (script p w) = 2 <-> exists t, p = UsageExit t) /\
  (snd (script p w) = 1 <->
   exists args, p = Namespace args /\
     ~ exists pre n,
         reaches_encoder args w pre n /\
         fst (run w (cmd args w pre n)) = 0 /\
         exists size, snd (run w (cmd args w pre n)) (out args) = Some size /\
                      0 < size).
Proof.
  destruct p as [args|t|t]; cbn [script fst snd].
  - destruct (main_success args w) as (H1 & _).
    refine (conj _ (conj _ (conj _ _))).
    + rewrite H1. split.
      * intros H. right. now exists args.
      * intros [(t & E)|(a & E & H)]; [discriminate E|].
        injection E as <-. exact H.
    + intros a E H0. injection E as <-.
      destruct (main_exit_zero args w H0) as (pre & n & Hr & E1 & E2 & Ht).
      exists pre, n. split; [exact Hr|]. split; [exact E1|].
      split; [now apply output_ok_spec|exact Ht].
    + split; [|intros (t & E); discriminate E].
      unfold exit_code. destruct (snd (main args w)); discriminate.
    + rewrite main_exit_one. split.
      * intros H. exists args. split; [reflexivity|].
        intros (pre & n & Hr & E1 & E2). apply H. exists pre, n.
        split; [exact Hr|]. split; [exact E1|]. now apply output_ok_spec.
      * intros (a & E & H). injection E as <-.
        intros (pre & n & Hr & E1 & E2). apply H. exists pre, n.
        split; [exact Hr|]. split; [exact E1|]. now apply output_ok_spec.
  - refine (conj _ (conj _ (conj _ _))).
    + split; [intros _; left; now exists t|reflexivity].
    + intros a E. discriminate E.
    + split; [discriminate|intros (t' & E); discriminate E].
    + split; [discriminate|intros (a & E & _); discriminate E].
  - refine (conj _ (conj _ (conj _ _))).
    + split; [discriminate|].
      intros [(t' & E)|(a & E & _)]; discriminate E.
    + intros a E. discriminate E.
    + split; [intros _; now exists t|reflexivity].
    + split; [discriminate|intros (a & E & _); discriminate E].
Qed.

(** X12: a scheme given by both options is used as it is, without a look
    at the names: the encoder is run with the pattern built from it, and
    when no candidate carries the prefix the numeric sequence is empty and
    no warning is printed. *)
Theorem explicit_scheme_not_validated (args : Args) (w : world)
    (p : str) (k : Z) :
  prefix args = Some p -> pad args = Some k ->
  is_dir w (indir args) = true -> pngs_of w (indir args) <> [] ->
  which w (lit "ffmpeg") = true ->
  reaches_encoder args w p k /\
  runs (fst (main args w)) = [cmd args w p k] /\
  ((forall f, In f (pngs_of w (indir args)) -> matches_num_re p f = false) ->
   nums_of p (pngs_of w (indir args)) = [] /\
   ~ In (Stdout msg_warn_gaps) (fst (main args w))).
Proof.
  intros Hp Hk Hd Hne Hw.
  assert (Hr : reaches_encoder args w p k).
  { repeat split; auto. unfold resolve_scheme. now rewrite Hp, Hk. }
  split; [exact Hr|]. split; [exact (main_runs args w p k Hr)|].
  intros Hnone.
  assert (E : nums_of p (pngs_of w (indir args)) = []).
  { rewrite nums_of_filter, filter_none by exact Hnone. reflexivity. }
  split; [exact E|].
  rewrite (main_trace_warn args w p k Hr), E. discriminate.
Qed.

Lemma outcome_identifies_cause_witness :
  snd (main default_args no_ffmpeg_world) = inl (SystemExit msg_no_ffmpeg) /\
  snd (main default_args no_dir_world)
    = inl (SystemExit (lit "[ERROR] Input folder not found: frames_png")).
Proof.
  split.
  - apply (proj1 (proj2 (proj2 (outcome_identifies_cause default_args
                                  no_ffmpeg_world)))).
    split; [reflexivity|]. split; [discriminate|reflexivity].
  - apply (proj1 (outcome_identifies_cause default_args no_dir_world)).
    reflexivity.
Defined.

Lemma inference_error_witness :
  fst (main default_args unnumbered_world) = [Which (lit "ffmpeg")] /\
  exit_code (main default_args unnumbered_world) = 1.
Proof.
  exact (proj2 (inference_error default_args unnumbered_world)
               msg_cannot_infer eq_refl).
Defined.

Lemma success_trace_witness :
  exists pre n,
    reaches_encoder default_args good_world pre n /\
    fst (run good_world (cmd default_args good_world pre n)) = 0 /\
    (exists size,
       snd (run good_world (cmd default_args good_world pre n))
           (out default_args) = Some size /\ 0 < size) /\
    fst (script (Namespace default_args) good_world) =
      Which (lit "ffmpeg")
      :: warn_events (nums_of pre (pngs_of good_world (indir default_args)))
      ++ [Stdout (msg_running (cmd default_args good_world pre n));
          Run (cmd default_args good_world pre n);
          Stdout (msg_ok good_world (out default_args))].
Proof.
  exact (proj1 (proj2 (success_trace (Namespace default_args) good_world))
               default_args eq_refl eq_refl).
Defined.

Lemma explicit_scheme_not_validated_witness :
  reaches_encoder odd_scheme_args gap_world (lit "zzz") (-3) /\
  runs (fst (main odd_scheme_args gap_world))
    = [cmd odd_scheme_args gap_world (lit "zzz") (-3)] /\
  nums_of (lit "zzz") (pngs_of gap_world (indir odd_scheme_args)) = [] /\
  ~ In (Stdout msg_warn_gaps) (fst (main odd_scheme_args gap_world)).
Proof.
  destruct (explicit_scheme_not_validated odd_scheme_args gap_world
              (lit "zzz") (-3) eq_refl eq_refl eq_refl)
    as (H1 & H2 & H3); [discriminate|reflexivity|].
  split; [exact H1|]. split; [exact H2|]. apply H3.
  intros f [<-|[<-|[<-|[<-|[<-|[]]]]]]; reflexivity.
Defined.

(** *** Inference and the names that do not match *)

Lemma Permutation_filter_same {A : Type} (f : A -> bool) (l l' : list A) :
  Permutation l l' -> Permutation (filter f l) (filter f l').
Proof.
  induction 1 as [|x l l' P IH|x y l|l l' l'' P1 IH1 P2 IH2]; simpl.
  - constructor.
  - destruct (f x); [now constructor|exact IH].
  - destruct (f x), (f y); try reflexivity. apply perm_swap.
  - now transitivity (filter f l').
Qed.

Lemma StronglySorted_filter {A : Type} (R : A -> A -> Prop) (f : A -> bool)
    (l : list A) :
  StronglySorted R l -> StronglySorted R (filter f l).
Proof.
  induction 1 as [|x l Hl IH Hx]; simpl; [constructor|].
  destruct (f x); [|exact IH]. constructor; [exact IH|].
  rewrite Forall_forall in *. intros y Hy. apply filter_In in Hy as [Hy _]. auto.
Qed.

Lemma sorted_filter (f : str -> bool) (l : list str) :
  filter f (sorted str_leb l) = sorted str_leb (filter f l).
Proof.
  apply (strongly_sorted_unique str_leb str_leb_total str_leb_antisym).
  - apply StronglySorted_filter, sorted_sorted;
      [apply str_leb_total|apply str_leb_trans].
  - apply sorted_sorted; [apply str_leb_total|apply str_leb_trans].
  - rewrite <- (sorted_perm str_leb (filter f l)).
    apply Permutation_filter_same. symmetry. apply sorted_perm.
Qed.

Lemma infer_loop_filter (l : list str) :
  infer_loop (filter matches_r l) = infer_loop l.
Proof.
  induction l as [|f l IH]; [reflexivity|]. cbn [filter infer_loop].
  unfold matches_r at 1. destruct (match_items r f) as [m|] eqn:E.
  - cbn [infer_loop]. now rewrite E.
  - exact IH.
Qed.

(** X13: the result of [infer_padding_and_prefix] does not depend on the
    order of the list it is given, nor on the names in it that [r] does
    not match: such names can be added or removed freely. *)
Theorem infer_ignores_order_and_strays (files : list str) :
  (forall files', Permutation files files' ->
     infer_padding_and_prefix files' = infer_padding_and_prefix files) /\
  infer_padding_and_prefix (filter matches_r files)
    = infer_padding_and_prefix files /\
  (forall strays, (forall f, In f strays -> match_items r f = None) ->
     infer_padding_and_prefix (files ++ strays)
       = infer_padding_and_prefix files).
Proof.
  assert (Hf : forall l, infer_padding_and_prefix (filter matches_r l)
                         = infer_padding_and_prefix l).
  { intros l. unfold infer_padding_and_prefix.
    now rewrite <- sorted_filter, infer_loop_filter. }
  split; [|split; [apply Hf|]].
  - intros files' P. unfold infer_padding_and_prefix. f_equal. symmetry.
    now apply (sorted_permutation str_leb str_leb_total str_leb_trans
                 str_leb_antisym).
  - intros strays Hs. rewrite <- (Hf (files ++ strays)), filter_app.
    rewrite (filter_none matches_r strays), app_nil_r; [apply Hf|].
    intros f Hin. unfold matches_r. now rewrite (Hs f Hin).
Qed.

Lemma infer_ignores_order_and_strays_witness :
  infer_padding_and_prefix
    ([lit "f2.png"; lit "f1.png"] ++ [lit "cover.png"; lit "a.txt"])
  = infer_padding_and_prefix [lit "f2.png"; lit "f1.png"].
Proof.
  apply (proj2 (proj2 (infer_ignores_order_and_strays
                         [lit "f2.png"; lit "f1.png"]))).
  intros f [<-|[<-|[]]]; reflexivity.
Defined.
